(** * Note composition for the Thai-language flashcard generator

    A shallow embedding of [thai_language/note.py]: the inline-reference
    codec, the media registry, the entity resolver, the component graph
    builder and the field composer, together with the properties the
    specification states about them.

    Python values are modelled as follows.
    - [str] is [string], read as the UTF-8 encoding of the text.  Every
      character the code looks for (["/"], [" "], ["&"], ["<"], [">"], the
      quotes, ["["], ["]"], ["!"]) is ASCII, and an ASCII byte never occurs
      inside a multi-byte sequence, so replacing and matching on bytes agrees
      with Python's replacing and matching on code points.
    - [int] identifiers are [Z]; the nesting level is a [nat].
    - a [dict] whose iteration order the code relies on is an association
      list in insertion order; the media [dict] and the dictionary behind the
      fetcher are [gmap]s; a [set] is a [gset].
    - a raised exception is the [Raise] branch of [result]. *)

From Stdlib Require Import ZArith String Ascii List Lia.
From Stdlib Require Import DecimalString.
From stdpp Require Import base gmap strings list fin_maps fin_sets.

Set Warnings "-clear-no-such-hyp".

Local Open Scope string_scope.
Local Open Scope Z_scope.

(** ** Exceptions and fallible results *)

Inductive Error : Type :=
| EntryNotFound
| KeyError
| IndexError
| AssertionError
| RuntimeError (msg : string)
| RecursionError.

Inductive result (A : Type) : Type :=
| Ok (a : A)
| Raise (e : Error).

Arguments Ok {A} a.
Arguments Raise {A} e.

Definition rbind {A B} (r : result A) (k : A -> result B) : result B :=
  match r with
  | Ok a => k a
  | Raise e => Raise e
  end.

Definition is_ok {A} (r : result A) : bool :=
  match r with Ok _ => true | Raise _ => false end.

Declare Scope result_scope.
Delimit Scope result_scope with result.
Notation "x <-? c ; k" := (rbind c (fun x => k))
  (at level 20, c at level 100, k at level 200, only parsing) : result_scope.
Notation "' p <-? c ; k" := (rbind c (fun x => let 'p := x in k))
  (at level 20, p pattern, c at level 100, k at level 200, only parsing) : result_scope.

(** ** Python string helpers *)

Module PyStr.

(** [s.replace(old, new)] for a one-character [old]. *)
Fixpoint replace (old : ascii) (new : string) (s : string) : string :=
  match s with
  | EmptyString => EmptyString
  | String c rest =>
      if Ascii.eqb c old then new ++ replace old new rest
      else String c (replace old new rest)
  end.

(** [sep.join(strs)]. *)
Fixpoint join (sep : string) (strs : list string) : string :=
  match strs with
  | [] => ""
  | [s] => s
  | s :: rest => s ++ sep ++ join sep rest
  end.

(** [n * s]. *)
Fixpoint repeat (n : nat) (s : string) : string :=
  match n with
  | O => ""
  | S n' => s ++ repeat n' s
  end.

(** [s.startswith(c)] for a one-character prefix. *)
Definition startswith (c : ascii) (s : string) : bool :=
  match s with
  | String c' _ => Ascii.eqb c' c
  | EmptyString => false
  end.

(** [html.escape(s)] with its default [quote=True]: the five replacements
    of the standard library, ampersand first. *)
Definition html_escape (s : string) : string :=
  let s := replace "&" "&amp;" s in
  let s := replace "<" "&lt;" s in
  let s := replace ">" "&gt;" s in
  let s := replace "034" "&quot;" s in
  replace "'" "&#x27;" s.

End PyStr.

(** ** Data model

    [types.py] is not part of the sources; the records below carry the
    fields [note.py] reads, with the shapes its code requires. *)

Definition EntryId := Z.
Definition DefinitionId := Z.

Record EntryRef : Type := mkEntryRef {
  ref_id : EntryId;
  ref_definition : option DefinitionId;
}.

#[global] Instance EntryRef_eq_dec : EqDecision EntryRef.
Proof. solve_decision. Defined.

#[global] Instance EntryRef_countable : Countable EntryRef.
Proof.
  refine (inj_countable' (fun r => (ref_id r, ref_definition r))
                         (fun p => mkEntryRef p.1 p.2) _).
  by intros [].
Defined.

(** An element of a component list: an [EntryRef] or [SELF_REFERENCE]. *)
Inductive ComponentRef : Type :=
| SELF_REFERENCE
| CRef (r : EntryRef).

(** [categories] is iterated twice by [is_suitable_definition]
    ([for cat in defn.categories for c in cat]), so it is a list of
    categories, each a list of names. *)
Record EntryDefinition : Type := mkDefinition {
  definition : string;
  categories : list (list string);
  super_entry : option EntryId;
  components : option (list ComponentRef);
  classifiers : option (list EntryRef);
  image_url : option string;
}.

Record DictionaryEntry : Type := mkEntry {
  entry_id : EntryId;
  entry : string;
  pronounciations : list (string * string);
  sound_url : option string;
  definitions : list (DefinitionId * EntryDefinition);
  first_definition : DefinitionId;
}.

(** [d[k]] on an insertion-ordered dict. *)
Fixpoint assoc {K V} `{EqDecision K} (k : K) (d : list (K * V)) : option V :=
  match d with
  | [] => None
  | (k', v) :: rest => if decide (k' = k) then Some v else assoc k rest
  end.

(** A Python dict has one item per key. *)
Definition dict_wf {K V} (d : list (K * V)) : Prop := NoDup (d.*1).

Definition getitem {K V} `{EqDecision K} (d : list (K * V)) (k : K) : result V :=
  match assoc k d with
  | Some v => Ok v
  | None => Raise KeyError
  end.

(** The external dictionary fetcher: [get_entry] looks an id up in the
    dictionary, [get_super_entry] synthesises the merged view. *)
Record DictionaryFetcher : Type := mkFetcher {
  dictionary : gmap EntryId DictionaryEntry;
  get_super_entry : DictionaryEntry -> DefinitionId -> result DictionaryEntry;
}.

Definition get_entry (f : DictionaryFetcher) (i : EntryId) : result DictionaryEntry :=
  match dictionary f !! i with
  | Some e => Ok e
  | None => Raise EntryNotFound
  end.

(** ** Media registry *)

Abbreviation MediaPath := string (only parsing).
Abbreviation MediaName := string (only parsing).
Abbreviation Media := (gmap string string) (only parsing).

(** Methods of [NoteFormatter] that touch [self._media]: the map goes in and
    comes out, also when the method raises. *)
Definition M (A : Type) : Type := gmap string string -> result A * gmap string string.

Definition mret {A} (a : A) : M A := fun m => (Ok a, m).

Definition mbind {A B} (c : M A) (k : A -> M B) : M B :=
  fun m =>
    match c m with
    | (Ok a, m') => k a m'
    | (Raise e, m') => (Raise e, m')
    end.

(** A call that does not touch [self._media]. *)
Definition lift {A} (r : result A) : M A := fun m => (r, m).

Definition media_clear : M unit := fun _ => (Ok tt, ∅).
Definition media_copy : M (gmap string string) := fun m => (Ok m, m).

Declare Scope fmt_scope.
Delimit Scope fmt_scope with fmt.
Notation "x <- c ;; k" := (mbind c (fun x => k))
  (at level 20, c at level 99, k at level 200, only parsing) : fmt_scope.
Notation "' p <- c ;; k" := (mbind c (fun x => let 'p := x in k))
  (at level 20, p pattern, c at level 99, k at level 200, only parsing) : fmt_scope.
Notation "c ;; k" := (mbind c (fun _ => k))
  (at level 100, k at level 200, only parsing, right associativity) : fmt_scope.

Definition use_media (path : MediaPath) : M MediaName :=
  fun media =>
    let name := PyStr.replace "/" "_" path in
    match media !! name with
    | Some old =>
        if decide (old = path) then (Ok name, media)
        else (Raise AssertionError, media)
    | None => (Ok name, <[name := path]> media)
    end.

(** ** Reference codec *)

(** What [note.py] takes from outside the module: the reference grammar of
    [refs.py] and the two Unicode-table methods of [str] it calls. *)
Record Externals : Type := mkExternals {
  parse_any_ref : DictionaryFetcher -> string -> list EntryRef;
  ref_to_string : EntryRef -> string;
  str_isupper : string -> bool;
  str_capitalize : string -> string;
}.

Record InlineRef : Type := mkInlineRef {
  ref : EntryRef;
  capitalized : bool;
}.

Definition format_inline_ref (ext : Externals) (r : InlineRef) : string :=
  let ret := ref_to_string ext (ref r) in
  let ret := if capitalized r then "!" ++ ret else ret in
  "[[" ++ ret ++ "]]".

(** Number of bytes of the UTF-8 sequence that starts with [c]. *)
Definition utf8_len (c : ascii) : nat :=
  let n := nat_of_ascii c in
  if (n <? 128)%nat then 1%nat
  else if (n <? 224)%nat then 2%nat
  else if (n <? 240)%nat then 3%nat
  else 4%nat.

(** [s[0]]: the first character, [IndexError] on the empty string. *)
Definition str_index0 (s : string) : result string :=
  match s with
  | EmptyString => Raise IndexError
  | String c rest => Ok (String c (substring 0 (utf8_len c - 1) rest))
  end.

(** A match of [_INLINE_REF_REGEX]: [m[0]] and its two named groups. *)
Record Match : Type := mkMatch {
  group0 : string;
  group_capitalized : option string;
  group_contents : string;
}.

(** [s] without its prefix [p], when [s] starts with [p]. *)
Fixpoint strip_prefix (p s : string) : option string :=
  match p with
  | EmptyString => Some s
  | String c p' =>
      match s with
      | String c' s' => if Ascii.eqb c c' then strip_prefix p' s' else None
      | EmptyString => None
      end
  end.

(** The longest prefix without "]" (the greedy [[^]]*]) and what follows. *)
Fixpoint span_contents (s : string) : string * string :=
  match s with
  | EmptyString => ("", "")
  | String c rest =>
      if Ascii.eqb c "]" then ("", s)
      else let '(a, b) := span_contents rest in (String c a, b)
  end.

(** [_INLINE_REF_REGEX.match(s)], the pattern anchored at the start of [s]:
    two opening brackets, an optional "!" (group [capitalized]), any run of
    characters other than the closing bracket (group [contents]), two
    closing brackets.  Both quantifiers are greedy and backtracking cannot help: a
    shorter [contents] leaves a character other than "]" where "]]" is
    required, and giving up the "!" only moves it into [contents] without
    changing where [contents] ends. *)
Definition _INLINE_REF_REGEX (s : string) : option Match :=
  match strip_prefix "[[" s with
  | None => None
  | Some rest =>
      let '(cap, rest1) :=
        match strip_prefix "!" rest with
        | Some r => (Some "!", r)
        | None => (None, rest)
        end in
      let '(contents, rest2) := span_contents rest1 in
      match strip_prefix "]]" rest2 with
      | None => None
      | Some _ =>
          Some {| group0 := "[[" ++ default "" cap ++ contents ++ "]]";
                  group_capitalized := cap;
                  group_contents := contents |}
      end
  end.

(** How [re.sub] cuts a text: characters outside any match, and the
    leftmost non-overlapping matches.  [skip] counts the characters of the
    current match still to be passed over. *)
Inductive Piece : Type :=
| Chr (c : ascii)
| Occ (m : Match).

Fixpoint scan (skip : nat) (s : string) : list Piece :=
  match s with
  | EmptyString => []
  | String c rest =>
      match skip with
      | S k => scan k rest
      | O =>
          match _INLINE_REF_REGEX s with
          | Some m => Occ m :: scan (String.length (group0 m) - 1) rest
          | None => Chr c :: scan 0 rest
          end
      end
  end.

Definition piece_text (p : Piece) : string :=
  match p with
  | Chr c => String c ""
  | Occ m => group0 m
  end.

(** The text a list of pieces covers. *)
Definition pieces_text (ps : list Piece) : string :=
  fold_right (fun p acc => piece_text p ++ acc) "" ps.

(** [s[n:]]. *)
Fixpoint str_drop (n : nat) (s : string) : string :=
  match n, s with
  | S k, String _ rest => str_drop k rest
  | _, _ => s
  end.

(** The replacement callback may update state of its caller (a [nonlocal]
    variable) and may raise. *)
Definition Callback (St A : Type) : Type := A -> St -> result (string * St).

(** Substitution over the pieces, left to right. *)
Fixpoint sub_pieces {St} (repl : Callback St Match) (ps : list Piece) (st : St)
  : result (string * St) :=
  match ps with
  | [] => Ok ("", st)
  | Chr c :: rest =>
      ('(out, st') <-? sub_pieces repl rest st;
       Ok (String c out, st'))%result
  | Occ m :: rest =>
      ('(r, st1) <-? repl m st;
       '(out, st2) <-? sub_pieces repl rest st1;
       Ok (r ++ out, st2))%result
  end.

Definition regex_sub {St} (repl : Callback St Match) (s : string) (st : St)
  : result (string * St) :=
  sub_pieces repl (scan 0 s) st.

(** The inner function [apply] of [replace_inline_refs]. *)
Definition apply {St} (ext : Externals) (fetcher : DictionaryFetcher)
    (callback : Callback St InlineRef) : Callback St Match :=
  fun m st =>
    let contents := group_contents m in
    let refs := parse_any_ref ext fetcher contents in
    match refs with
    | [] => Ok (group0 m, st)
    | ref0 :: _ =>
        let capitalized := bool_decide (group_capitalized m <> None) in
        (first <-? str_index0 contents;
         let capitalized := if str_isupper ext first then true else capitalized in
         callback {| ref := ref0; capitalized := capitalized |} st)%result
    end.

Definition replace_inline_refs {St} (ext : Externals) (fetcher : DictionaryFetcher)
    (callback : Callback St InlineRef) (inline_refs : string) (st : St)
  : result (string * St) :=
  regex_sub (apply ext fetcher callback) inline_refs st.

Definition join_nonempty_strings (strs : list string) (sep : string) : string :=
  PyStr.join sep (filter (fun s => s <> "") strs).

(** ** Notes and components *)

Record WordNote : Type := mkWordNote {
  note_ref : EntryRef;
  word : string;
  note_definition : string;
  extra : string;
  media : gmap string string;
}.

Record ClozeNote : Type := mkClozeNote {
  inline_ids : string;
  cloze : string;
  cloze_extra : string;
  cloze_media : gmap string string;
}.

Record WordComponent : Type := mkWordComponent {
  wc_id : EntryId;
  wc_definition : DefinitionId;
  wc_entry : DictionaryEntry;
  wc_level : nat;
}.

Record NoteFormatter : Type := mkNoteFormatter {
  _fetcher : DictionaryFetcher;
  _pronounciation_type : string;
}.

(** [NoteFormatter(fetcher, pronounciation_type=None)]. *)
Definition new_formatter (fetcher : DictionaryFetcher) (pronounciation_type : option string)
  : NoteFormatter :=
  {| _fetcher := fetcher;
     _pronounciation_type := default "Paiboon" pronounciation_type |}.

(** ** Field composer: suitability and plain formatting *)

Definition is_suitable_definition (_entry : DictionaryEntry) (defn : EntryDefinition) : bool :=
  match super_entry defn with
  | Some _ => false
  | None =>
      if existsb (String.eqb "The English Alphabet") (concat (categories defn))
      then false
      else true
  end.

Definition suitable_definitions (e : DictionaryEntry) : result (list DefinitionId) :=
  let defns :=
    map fst (filter (fun kv => is_suitable_definition e (snd kv) = true) (definitions e)) in
  match defns with
  | [] => Raise (RuntimeError "No suitable definitions found")
  | _ => Ok defns
  end.

Definition format_pronounciation (fmt : NoteFormatter) (e : DictionaryEntry) : result string :=
  (p <-? getitem (pronounciations e) (_pronounciation_type fmt);
   Ok (PyStr.html_escape (PyStr.replace " " "-" p)))%result.

Definition format_inline_word (fmt : NoteFormatter) (e : DictionaryEntry) : result string :=
  (pronounciation <-? format_pronounciation fmt e;
   let entry_str := PyStr.html_escape (entry e) in
   Ok ("<ruby>" ++ entry_str ++ "<rt>" ++ pronounciation ++ "</rt></ruby>"))%result.

Definition format_word_field (fmt : NoteFormatter) (e : DictionaryEntry) : M string :=
  (pronounciation <- lift (format_pronounciation fmt e) ;;
   let entry_str := PyStr.html_escape (entry e) in
   let word_str := entry_str ++ "[" ++ pronounciation ++ "]" in
   match sound_url e with
   | Some url =>
       sound_file <- use_media url ;;
       mret (word_str ++ " [sound:" ++ sound_file ++ "]")
   | None => mret word_str
   end)%fmt.

Definition format_definition (e : DictionaryEntry) (defn : option DefinitionId) : result string :=
  let defn := default (first_definition e) defn in
  (d <-? getitem (definitions e) defn;
   Ok (PyStr.html_escape (definition d)))%result.

(** A [for] loop that collects one result per element and stops at the
    first exception. *)
Fixpoint map_result {A B} (f : A -> result B) (l : list A) : result (list B) :=
  match l with
  | [] => Ok []
  | a :: rest =>
      (b <-? f a;
       bs <-? map_result f rest;
       Ok (b :: bs))%result
  end.

Definition format_definition_field (e : DictionaryEntry) : result string :=
  (ids <-? suitable_definitions e;
   defn_strs <-? map_result (fun i => format_definition e (Some i)) ids;
   Ok (PyStr.join "<br>" defn_strs))%result.

Definition format_component (fmt : NoteFormatter) (component : WordComponent) : result string :=
  (component_word <-? format_inline_word fmt (wc_entry component);
   component_defn <-? format_definition (wc_entry component) (Some (wc_definition component));
   let nbsps := PyStr.repeat (2 * wc_level component) "&nbsp;" in
   Ok (nbsps ++ component_word ++ ": " ++ component_defn))%result.

(** ** Component graph builder

    A generator is modelled by what it has yielded, the [visited] set it
    leaves behind, and how it stopped.  [OutOfFuel] is the model's own
    outcome: the recursion depth allowed by the fuel is used up. *)

Inductive Outcome : Type :=
| Finished
| Raised (e : Error)
| OutOfFuel.

Record Gen : Type := mkGen {
  emitted : list WordComponent;
  visited_after : gset EntryRef;
  outcome : Outcome;
}.

(** [yield from] of one generator after another over the shared set: the
    second runs only if the first finished. *)
Definition gen_then (g : Gen) (k : gset EntryRef -> Gen) : Gen :=
  match outcome g with
  | Finished =>
      let g' := k (visited_after g) in
      {| emitted := (emitted g ++ emitted g')%list;
         visited_after := visited_after g';
         outcome := outcome g' |}
  | _ => g
  end.

(** [for x in xs: yield from step(x)]. *)
Fixpoint gen_for {A} (step : A -> gset EntryRef -> Gen) (xs : list A)
    (visited : gset EntryRef) : Gen :=
  match xs with
  | [] => {| emitted := []; visited_after := visited; outcome := Finished |}
  | x :: rest => gen_then (step x visited) (gen_for step rest)
  end.

Definition gen_raise (e : Error) (visited : gset EntryRef) : Gen :=
  {| emitted := []; visited_after := visited; outcome := Raised e |}.

(** The pair under which a component is recorded in [visited]. *)
Definition wc_ref (c : WordComponent) : EntryRef :=
  mkEntryRef (wc_id c) (Some (wc_definition c)).

(** The pairs a generator has yielded, in order. *)
Definition yielded_refs (g : Gen) : list EntryRef := map wc_ref (emitted g).

(** [_build_component], with the recursive call to [_build_components]
    passed in as [expand]. *)
Definition _build_component_with
    (expand : DictionaryEntry -> gset EntryRef -> nat -> Gen)
    (fetcher : DictionaryFetcher)
    (r : EntryRef) (component : DictionaryEntry) (visited : gset EntryRef)
    (level : nat) (emit_subcomponents : bool) : Gen :=
  let defn := default (first_definition component) (ref_definition r) in
  let comp_ref := mkEntryRef (entry_id component) (Some defn) in
  if decide (comp_ref ∈ visited) then
    {| emitted := []; visited_after := visited; outcome := Finished |}
  else
    match getitem (definitions component) defn with
    | Raise e => gen_raise e visited
    | Ok d =>
        let comp_entry :=
          match super_entry d with
          | Some _ => get_super_entry fetcher component defn
          | None => Ok component
          end in
        match comp_entry with
        | Raise e => gen_raise e visited
        | Ok comp_entry =>
            let yielded :=
              {| emitted := [ {| wc_id := entry_id component;
                                 wc_definition := defn;
                                 wc_entry := comp_entry;
                                 wc_level := level |} ];
                 visited_after := {[comp_ref]} ∪ visited;
                 outcome := Finished |} in
            if emit_subcomponents
            then gen_then yielded (fun visited' => expand comp_entry visited' (S level))
            else yielded
        end
    end.

(** The definition [_build_components] expands: the first one, in stored
    order, with [components is not None and super_entry is None]. *)
Definition components_definition (e : DictionaryEntry) : option EntryDefinition :=
  List.find (fun defn => bool_decide (components defn <> None)
                         && bool_decide (super_entry defn = None))
            (map snd (definitions e)).

(** One iteration of the loop of [_build_components]. *)
Definition component_step
    (expand : DictionaryEntry -> gset EntryRef -> nat -> Gen)
    (fetcher : DictionaryFetcher) (e : DictionaryEntry) (level : nat)
    (rel_component : ComponentRef) (visited : gset EntryRef) : Gen :=
  let rel_component :=
    match rel_component with
    | SELF_REFERENCE => mkEntryRef (entry_id e) None
    | CRef r => r
    end in
  match get_entry fetcher (ref_id rel_component) with
  | Raise err => gen_raise err visited
  | Ok component =>
      _build_component_with expand fetcher rel_component component visited level
        (negb (ref_id rel_component =? entry_id e))
  end.

Fixpoint _build_components (fuel : nat) (fetcher : DictionaryFetcher)
    (e : DictionaryEntry) (visited : gset EntryRef) (level : nat) : Gen :=
  match fuel with
  | O => {| emitted := []; visited_after := visited; outcome := OutOfFuel |}
  | S fuel' =>
      match components_definition e with
      | None => {| emitted := []; visited_after := visited; outcome := Finished |}
      | Some comp_defn =>
          gen_for (component_step (_build_components fuel' fetcher) fetcher e level)
                  (default [] (components comp_defn)) visited
      end
  end.

Definition _build_component (fuel : nat) (fetcher : DictionaryFetcher)
    (r : EntryRef) (component : DictionaryEntry) (visited : gset EntryRef)
    (level : nat) (emit_subcomponents : bool) : Gen :=
  _build_component_with (_build_components fuel fetcher) fetcher
    r component visited level emit_subcomponents.

(** Every pair an entry of the dictionary can be recorded under. *)
Definition entry_refs (e : DictionaryEntry) : list EntryRef :=
  map (fun kv => mkEntryRef (entry_id e) (Some (fst kv))) (definitions e).

Definition universe (fetcher : DictionaryFetcher) : gset EntryRef :=
  list_to_set (flat_map (fun kv => entry_refs (snd kv)) (map_to_list (dictionary fetcher))).

(** A recursion depth no traversal over this dictionary exceeds
    (theorem [traversal_fuel_enough]). *)
Definition traversal_fuel (fetcher : DictionaryFetcher) : nat :=
  S (size (universe fetcher)).

Definition build_component (fmt : NoteFormatter) (r : EntryRef)
    (component : DictionaryEntry) (visited : option (gset EntryRef)) : Gen :=
  let visited := default ∅ visited in
  _build_component (traversal_fuel (_fetcher fmt)) (_fetcher fmt) r component visited 0 true.

Definition build_components (fmt : NoteFormatter) (e : DictionaryEntry)
    (visited : option (gset EntryRef)) : Gen :=
  let visited := default ∅ visited in
  _build_components (traversal_fuel (_fetcher fmt)) (_fetcher fmt) e visited 0.

(** [list(gen)]: everything yielded, or the exception that ended it. *)
Definition gen_list (g : Gen) : result (list WordComponent) :=
  match outcome g with
  | Finished => Ok (emitted g)
  | Raised e => Raise e
  | OutOfFuel => Raise RecursionError
  end.

(** ["<br>".join(map(f, gen))]: [f] runs on each component as it is yielded,
    so an exception of [f] comes before a later one of the generator. *)
Definition gen_map_result {B} (f : WordComponent -> result B) (g : Gen) : result (list B) :=
  (bs <-? map_result f (emitted g);
   match outcome g with
   | Finished => Ok bs
   | Raised e => Raise e
   | OutOfFuel => Raise RecursionError
   end)%result.

(** ** Field composer: extra field, resolver and notes *)

Definition first_classifier (e : DictionaryEntry) : option EntryRef :=
  match List.find (fun defn => match classifiers defn with
                               | Some (_ :: _) => true
                               | _ => false
                               end) (map snd (definitions e)) with
  | Some defn => head (default [] (classifiers defn))
  | None => None
  end.

Definition format_extra_field (fmt : NoteFormatter) (e : DictionaryEntry) : result string :=
  (components <-? gen_list (build_components fmt e None);
   classifier_str <-?
     match first_classifier e with
     | None => Ok ""
     | Some classifier_ref =>
         classifier_entry <-? get_entry (_fetcher fmt) (ref_id classifier_ref);
         classifier_word <-? format_inline_word fmt classifier_entry;
         classifier_defn <-? format_definition classifier_entry (ref_definition classifier_ref);
         let classifier_str := "Classifier: " ++ classifier_word in
         if PyStr.startswith "[" classifier_defn
         then Ok (classifier_str ++ " " ++ classifier_defn)
         else Ok (classifier_str ++ " - " ++ classifier_defn)
     end;
   component_strs <-? map_result (format_component fmt) components;
   let components_str := PyStr.join "<br>" component_strs in
   Ok (join_nonempty_strings [classifier_str; components_str] "<br><br>"))%result.

Definition _ref_to_entry (fmt : NoteFormatter) (r : EntryRef)
  : result (EntryRef * DictionaryEntry) :=
  (e <-? get_entry (_fetcher fmt) (ref_id r);
   let new_ref := mkEntryRef (entry_id e) (ref_definition r) in
   match ref_definition r with
   | None => Ok (new_ref, e)
   | Some d =>
       match assoc d (definitions e) with
       | None => Raise EntryNotFound
       | Some defn =>
           match super_entry defn with
           | None =>
               let new_entry :=
                 {| entry_id := entry_id e;
                    entry := entry e;
                    pronounciations := pronounciations e;
                    sound_url := sound_url e;
                    definitions :=
                      filter (fun kv => fst kv = d) (definitions e);
                    first_definition := first_definition e |} in
               Ok (new_ref, new_entry)
           | Some _ =>
               new_entry <-? get_super_entry (_fetcher fmt) e d;
               Ok (new_ref, new_entry)
           end
       end
   end)%result.

Definition entry_to_note (fmt : NoteFormatter) (r : EntryRef) : M WordNote :=
  ('(real_ref, e) <- lift (_ref_to_entry fmt r) ;;
   media_clear ;;
   word_str <- format_word_field fmt e ;;
   definition_str <- lift (format_definition_field e) ;;
   extra_str <- lift (format_extra_field fmt e) ;;
   media <- media_copy ;;
   media_clear ;;
   mret {| note_ref := real_ref;
           word := word_str;
           note_definition := definition_str;
           extra := extra_str;
           media := media |})%fmt.

(** The generator expression of [format_cloze_extra_field]: one
    [build_component] per entry, all over the same [visited] set. *)
Definition cloze_components (fmt : NoteFormatter)
    (entries : list (EntryRef * DictionaryEntry)) (visited : gset EntryRef) : Gen :=
  gen_for (fun '(r, e) visited => build_component fmt r e (Some visited))
          entries visited.

Definition format_cloze_extra_field (fmt : NoteFormatter)
    (entries : list (EntryRef * DictionaryEntry)) : result string :=
  let visited : gset EntryRef := ∅ in
  let components := cloze_components fmt entries visited in
  (component_strs <-? gen_map_result (format_component fmt) components;
   Ok (PyStr.join "<br>" component_strs))%result.

Definition cloze_to_note (ext : Externals) (fmt : NoteFormatter)
    (raw_inline_ids : string) : M ClozeNote :=
  let parse_entries_ids : Callback (list (EntryRef * DictionaryEntry)) InlineRef :=
    fun inline_ref entries =>
      ('(real_ref, e) <-? _ref_to_entry fmt (ref inline_ref);
       let entries := (entries ++ [(real_ref, e)])%list in
       let new_inline_ref :=
         {| ref := real_ref; capitalized := capitalized inline_ref |} in
       Ok (format_inline_ref ext new_inline_ref, entries))%result in
  let emit_pronounciations : Callback unit InlineRef :=
    fun inline_ref st =>
      ('(_real_ref, e) <-? _ref_to_entry fmt (ref inline_ref);
       word <-? format_pronounciation fmt e;
       let word := if capitalized inline_ref then str_capitalize ext word else word in
       Ok (word, st))%result in
  ('(inline_ids, entries) <-
     lift (replace_inline_refs ext (_fetcher fmt) parse_entries_ids raw_inline_ids []) ;;
   '(cloze, _) <-
     lift (replace_inline_refs ext (_fetcher fmt) emit_pronounciations inline_ids tt) ;;
   extra_str <- lift (format_cloze_extra_field fmt entries) ;;
   mret {| inline_ids := inline_ids;
           cloze := cloze;
           cloze_extra := extra_str;
           cloze_media := ∅ |})%fmt.


(** ** Specification-side definitions and example data *)

(** The definitions the specification calls suitable: not merged and not
    tagged "The English Alphabet". *)
Definition spec_suitable (defn : EntryDefinition) : Prop :=
  super_entry defn = None /\ ~ In "The English Alphabet" (concat (categories defn)).

#[global] Instance spec_suitable_dec defn : Decision (spec_suitable defn).
Proof. unfold spec_suitable. apply and_dec; [solve_decision|]. apply not_dec, In_dec, string_dec. Defined.

Definition spec_suitable_ids (e : DictionaryEntry) : list DefinitionId :=
  map fst (filter (fun kv => spec_suitable (snd kv)) (definitions e)).


(** The selection the specification words: the first definition with a
    non-empty component list that is not merged. *)
Definition spec_components_definition (e : DictionaryEntry) : option EntryDefinition :=
  List.find (fun defn => match components defn with
                         | Some (_ :: _) => bool_decide (super_entry defn = None)
                         | _ => false
                         end)
            (map snd (definitions e)).

(** A generator started on [v] is well behaved when the set it leaves is
    [v] plus the pairs it yielded, and those pairs are pairwise distinct and
    were not in [v]. *)
Definition gen_ok (v : gset EntryRef) (g : Gen) : Prop :=
  visited_after g = list_to_set (yielded_refs g) ∪ v
  /\ NoDup (yielded_refs g)
  /\ (forall r, r ∈ yielded_refs g -> r ∉ v).

(** The pairs of the dictionary not yet visited. *)
Definition unvisited (f : DictionaryFetcher) (v : gset EntryRef) : nat :=
  size (universe f ∖ v).

(** The entry a component is yielded with: the definition must exist, and a
    merged definition is replaced by the fetcher's merged view (lines
    200-203 of [_build_component]). *)
Definition resolve_component (f : DictionaryFetcher) (component : DictionaryEntry)
    (defn : DefinitionId) : result DictionaryEntry :=
  (d <-? getitem (definitions component) defn;
   match super_entry d with
   | Some _ => get_super_entry f component defn
   | None => Ok component
   end)%result.

Module Examples.

Definition plain (text : string) (comps : option (list ComponentRef)) : EntryDefinition :=
  {| definition := text; categories := []; super_entry := None;
     components := comps; classifiers := None; image_url := None |}.

Definition simple_entry (i : EntryId) (text pron : string)
    (defs : list (DefinitionId * EntryDefinition)) : DictionaryEntry :=
  {| entry_id := i; entry := text; pronounciations := [("Paiboon", pron)];
     sound_url := None; definitions := defs; first_definition := 0 |}.

(** The entry of the simple word note scenario. *)
Definition naam : DictionaryEntry :=
  simple_entry 1 "น้ำ" "náam" [(0, plain "water" None)].

Definition no_super : DictionaryEntry -> DefinitionId -> result DictionaryEntry :=
  fun _ _ => Raise EntryNotFound.

Definition fetcher_of (es : list DictionaryEntry) : DictionaryFetcher :=
  {| dictionary := list_to_map (map (fun e => (entry_id e, e)) es);
     get_super_entry := no_super |}.

Definition fmt_of (es : list DictionaryEntry) : NoteFormatter :=
new_formatter (fetcher_of es) None.

(** An expansion that is never meant to run. *)
Definition no_expand : DictionaryEntry -> gset EntryRef -> nat -> Gen :=
fun _ v _ => gen_raise RecursionError v.

(** A two-definition entry: the first has a component list that is
    present but empty, the second lists entry 1. *)
Definition empty_then_full : DictionaryEntry :=
  simple_entry 2 "ab" "ab"
    [(0, plain "first" (Some []));
     (1, plain "second" (Some [CRef (mkEntryRef 1 None)]))].

(** An entry that lists itself as its only component. *)
Definition selfish : DictionaryEntry :=
  simple_entry 3 "s" "s" [(0, plain "self" (Some [SELF_REFERENCE]))].

(** Two entries that list each other. *)
Definition cyc_a : DictionaryEntry :=
  simple_entry 10 "a" "a" [(0, plain "A" (Some [CRef (mkEntryRef 11 None)]))].
Definition cyc_b : DictionaryEntry :=
  simple_entry 11 "b" "b" [(0, plain "B" (Some [CRef (mkEntryRef 10 None)]))].

(** An entry with audio but no suitable definition. *)
Definition alphabet : DictionaryEntry :=
  {| entry_id := 4; entry := "a"; pronounciations := [("Paiboon", "aa")];
     sound_url := Some "x/y.mp3";
     definitions := [(0, {| definition := "letter a";
                            categories := [["Letters"; "The English Alphabet"]];
                            super_entry := None; components := None;
                            classifiers := None; image_url := None |})];
     first_definition := 0 |}.

(** A grammar that recognises nothing, and one that resolves every text
    to entry 1. *)
Definition ext_none : Externals :=
  {| parse_any_ref := fun _ _ => []; ref_to_string := fun _ => "";
     str_isupper := fun _ => false; str_capitalize := fun s => s |}.
Definition ext_all : Externals :=
  {| parse_any_ref := fun _ _ => [mkEntryRef 1 None]; ref_to_string := fun _ => "1";
     str_isupper := fun _ => false; str_capitalize := fun s => s |}.

End Examples.

(** ** The remaining functions of the module *)

(** [escape_quoted_search]: four replacements, the backslash first. *)
Definition escape_quoted_search (s : string) : string :=
  let s := PyStr.replace "\" "\\" s in
  let s := PyStr.replace "034" (String "\" (String "034" "")) s in
  let s := PyStr.replace "*" "\*" s in
  PyStr.replace "_" "\_" s.

(** [str(n)] for an [int]. *)
Definition str_of_int (n : Z) : string := NilZero.string_of_int (Z.to_int n).

Record Cloze : Type := mkCloze {
  cloze_id : Z;
  contents : string;
  hint : option string;
}.

Definition format_cloze (c : Cloze) : string :=
  let ret := "c" ++ str_of_int (cloze_id c) ++ "::" ++ contents c in
  let ret :=
    match hint c with
    | Some h => ret ++ "::" ++ h
    | None => ret
    end in
  "{{" ++ ret ++ "}}".

Definition get_super_entry_pronounciations (fmt : NoteFormatter) (name : string)
    (self_pronounciation : string) (comps : list ComponentRef) : result string :=
  (pronounciation_parts <-?
     map_result
       (fun comp =>
          match comp with
          | SELF_REFERENCE => Ok self_pronounciation
          | CRef r =>
              comp_entry <-? get_entry (_fetcher fmt) (ref_id r);
              getitem (pronounciations comp_entry) name
          end) comps;
   Ok (PyStr.join " " pronounciation_parts))%result.

(** ** Vocabulary for the properties *)

(** [c in s]. *)
Fixpoint str_mem (c : ascii) (s : string) : bool :=
  match s with
  | EmptyString => false
  | String c' rest => Ascii.eqb c' c || str_mem c rest
  end.

(** A text rewritten character by character. *)
Fixpoint str_flat_map (f : ascii -> string) (s : string) : string :=
  match s with
  | EmptyString => ""
  | String c rest => f c ++ str_flat_map f rest
  end.

(** What [escape_quoted_search] does to one character. *)
Definition escape_char (c : ascii) : string :=
  if Ascii.eqb c "\" || Ascii.eqb c "034" || Ascii.eqb c "*" || Ascii.eqb c "_"
  then String "\" (String c "")
  else String c "".

(** What [html.escape] does to one character. *)
Definition html_char (c : ascii) : string :=
  if Ascii.eqb c "&" then "&amp;"
  else if Ascii.eqb c "<" then "&lt;"
  else if Ascii.eqb c ">" then "&gt;"
  else if Ascii.eqb c "034" then "&quot;"
  else if Ascii.eqb c "'" then "&#x27;"
  else String c "".

(** Reading a backslash-escaped text: a backslash makes the character after
    it literal. *)
Fixpoint unescape_quoted_search (s : string) : string :=
  match s with
  | EmptyString => ""
  | String c rest =>
      if Ascii.eqb c "\" then
        match rest with
        | String c' rest' => String c' (unescape_quoted_search rest')
        | EmptyString => String c ""
        end
      else String c (unescape_quoted_search rest)
  end.

(** The levels of a pre-order listing rooted at [lo]: it starts at [lo],
    never goes above it, and goes at most one level deeper at a time. *)
Fixpoint outline_from (prev : nat) (lo : nat) (levels : list nat) : Prop :=
  match levels with
  | [] => True
  | l :: rest => (lo <= l)%nat /\ (l <= S prev)%nat /\ outline_from l lo rest
  end.

Definition outline (lo : nat) (levels : list nat) : Prop :=
  match levels with
  | [] => True
  | l :: rest => l = lo /\ outline_from l lo rest
  end.

(** A yielded component that stands for an entry of the dictionary: its id
    is that entry's id and its entry is what the entry resolves to under the
    component's definition id. *)
Definition from_dictionary (f : DictionaryFetcher) (c : WordComponent) : Prop :=
  exists i component,
    dictionary f !! i = Some component
    /\ wc_id c = entry_id component
    /\ resolve_component f component (wc_definition c) = Ok (wc_entry c).

(** The pair of the component a top-level [build_component] call is for. *)
Definition top_ref (r : EntryRef) (component : DictionaryEntry) : EntryRef :=
  mkEntryRef (entry_id component)
             (Some (default (first_definition component) (ref_definition r))).

Module MoreExamples.

(** An entry with audio and one suitable definition. *)
Definition spoken : DictionaryEntry :=
{| entry_id := 5; entry := "ma<a"; pronounciations := [("Paiboon", "maa dii")];
   sound_url := Some "mp3/E5.mp3";
   definitions := [(0, Examples.plain "to come" None)];
   first_definition := 0 |}.

(** A dictionary that has the entry 5 also under the alias id 1. *)
Definition alias_fetcher : DictionaryFetcher :=
{| dictionary := {[1 := spoken; 5 := spoken]};
   get_super_entry := Examples.no_super |}.

(** A grammar whose canonical text of every reference is "7" and which
    reads every text as entry 7. *)
Definition ext_seven : Externals :=
{| parse_any_ref := fun _ _ => [mkEntryRef 7 None]; ref_to_string := fun _ => "7";
   str_isupper := fun _ => false; str_capitalize := fun s => s |}.

(** An entry whose definition 1 is merged, and a fetcher that synthesises
    the merged view of it. *)
Definition merged_defn : EntryDefinition :=
{| definition := "merged"; categories := []; super_entry := Some 8;
   components := None; classifiers := None; image_url := None |}.

Definition with_merged : DictionaryEntry :=
Examples.simple_entry 6 "m" "m" [(0, Examples.plain "plain" None); (1, merged_defn)].

Definition merged_view : DictionaryEntry :=
Examples.simple_entry 8 "mm" "mm" [(0, Examples.plain "view" None)].

Definition fetcher_with_super : DictionaryFetcher :=
{| dictionary := {[6 := with_merged]};
   get_super_entry := fun _ _ => Ok merged_view |}.

(** An entry counted with the classifier entry 9, whose definition text
    starts with a bracket. *)
Definition piece : DictionaryEntry :=
Examples.simple_entry 9 "an" "an" [(0, Examples.plain "[piece]" None)].

Definition counted : DictionaryEntry :=
Examples.simple_entry 12 "k" "k"
  [(0, {| definition := "thing"; categories := []; super_entry := None;
          components := None; classifiers := Some [mkEntryRef 9 None];
          image_url := None |})].

End MoreExamples.
(** * Properties *)

(** ** Shared lemmas on dicts and loops *)

Lemma assoc_Some_In {K V} `{EqDecision K} (k : K) (d : list (K * V)) v :
  assoc k d = Some v -> In (k, v) d.
Proof.
  induction d as [|[k' v'] d IH]; simpl; [discriminate|].
  destruct (decide (k' = k)) as [->|]; intros H.
  - injection H as ->. by left.
  - right. by apply IH.
Qed.

Lemma assoc_None_keys {K V} `{EqDecision K} (k : K) (d : list (K * V)) :
  assoc k d = None <-> ~ In k (map fst d).
Proof.
  induction d as [|[k' v'] d IH]; simpl; [tauto|].
  destruct (decide (k' = k)) as [->|Hne].
  - split; [discriminate | tauto].
  - rewrite IH. tauto.
Qed.

Lemma filter_key_absent {K V} `{EqDecision K} (k : K) (d : list (K * V)) :
  ~ In k (map fst d) -> filter (fun kv => fst kv = k) d = [].
Proof.
  induction d as [|[k' v'] d IH]; simpl; [done|]. intros Hn.
  rewrite filter_cons. simpl. rewrite decide_False by tauto.
  apply IH. tauto.
Qed.

(** On a dict, keeping the items with key [k] keeps the one item [d[k]]. *)
Lemma filter_key_unique {K V} `{EqDecision K} (k : K) (d : list (K * V)) v :
  dict_wf d -> assoc k d = Some v -> filter (fun kv => fst kv = k) d = [(k, v)].
Proof.
  unfold dict_wf. induction d as [|[k' v'] d IH]; simpl; [discriminate|].
  intros Hnd Ha. apply NoDup_cons in Hnd as [Hk Hnd].
  rewrite filter_cons. simpl.
  destruct (decide (k' = k)) as [->|Hne].
  - injection Ha as ->. f_equal. apply filter_key_absent.
    intros Hin. apply Hk. apply list_elem_of_In. exact Hin.
  - by apply IH.
Qed.

Lemma find_first {A} (p : A -> bool) (l : list A) :
  match List.find p l with
  | Some x => exists pre post, l = (pre ++ x :: post)%list /\ p x = true
                               /\ Forall (fun y => p y = false) pre
  | None => Forall (fun y => p y = false) l
  end.
Proof.
  induction l as [|a l IH]; simpl; [constructor|].
  destruct (p a) eqn:Ea.
  - exists [], l. by repeat split.
  - destruct (List.find p l) as [x|].
    + destruct IH as (pre & post & -> & Hx & Hpre).
      exists (a :: pre), post. repeat split; [done|]. by constructor.
    + by constructor.
Qed.

(** ** Entity resolver *)

(** C6. For a reference carrying a definition id whose entry the fetcher
    returns: if that id is not a key of the entry's definitions, the resolver
    raises EntryNotFound; if it is, and the definition is not merged, the
    resolver returns the entry with its definitions narrowed to that single
    item and every other field unchanged, under the reference
    (entry id, definition id). *)
Theorem ref_to_entry_narrows (fmt : NoteFormatter) (r : EntryRef)
    (d : DefinitionId) (e : DictionaryEntry) :
  ref_definition r = Some d ->
  dictionary (_fetcher fmt) !! ref_id r = Some e ->
  dict_wf (definitions e) ->
  (assoc d (definitions e) = None -> _ref_to_entry fmt r = Raise EntryNotFound)
  /\ (forall defn, assoc d (definitions e) = Some defn -> super_entry defn = None ->
        _ref_to_entry fmt r =
          Ok (mkEntryRef (entry_id e) (Some d),
              {| entry_id := entry_id e;
                 entry := entry e;
                 pronounciations := pronounciations e;
                 sound_url := sound_url e;
                 definitions := [(d, defn)];
                 first_definition := first_definition e |})).
Proof.
  intros Hd He Hwf. unfold _ref_to_entry, get_entry. rewrite He, Hd. simpl.
  split.
  - by intros ->.
  - intros defn Ha Hs. rewrite Ha, Hs.
    by rewrite (filter_key_unique d (definitions e) defn Hwf Ha).
Qed.

(** ** Suitable definitions *)

Lemma is_suitable_definition_spec e defn :
  is_suitable_definition e defn = true <-> spec_suitable defn.
Proof.
  unfold is_suitable_definition, spec_suitable.
  destruct (super_entry defn); [split; [discriminate | intros [? _]; discriminate]|].
  destruct (existsb _ _) eqn:E.
  - apply existsb_exists in E as (c & Hin & Hc). apply String.eqb_eq in Hc as <-.
    split; [discriminate | tauto].
  - split; [|done]. intros _. split; [done|]. intros Hin.
    assert (existsb (String.eqb "The English Alphabet") (concat (categories defn)) = true) as Ht.
    { apply existsb_exists. eexists. split; [exact Hin | apply String.eqb_refl]. }
    congruence.
Qed.

Lemma suitable_filter_eq e :
  filter (fun kv => is_suitable_definition e (snd kv) = true) (definitions e)
  = filter (fun kv => spec_suitable (snd kv)) (definitions e).
Proof.
  apply list_filter_iff. intros kv. apply is_suitable_definition_spec.
Qed.

(** C7. [suitable_definitions] returns, in stored order, exactly the ids of
    the definitions that are not merged and not tagged "The English
    Alphabet", and it raises "No suitable definitions found" exactly when
    there is no such definition. *)
Theorem suitable_definitions_exact (e : DictionaryEntry) :
  (forall i, In i (spec_suitable_ids e) <->
             exists defn, In (i, defn) (definitions e) /\ super_entry defn = None
                          /\ ~ In "The English Alphabet" (concat (categories defn)))
  /\ (forall ids, suitable_definitions e = Ok ids <->
                  ids = spec_suitable_ids e /\ spec_suitable_ids e <> [])
  /\ (suitable_definitions e = Raise (RuntimeError "No suitable definitions found") <->
      spec_suitable_ids e = [])
  /\ (is_ok (suitable_definitions e) = false <-> spec_suitable_ids e = []).
Proof.
  assert (Hs : suitable_definitions e =
               match spec_suitable_ids e with
               | [] => Raise (RuntimeError "No suitable definitions found")
               | _ => Ok (spec_suitable_ids e)
               end).
  { unfold suitable_definitions, spec_suitable_ids. by rewrite suitable_filter_eq. }
  split; [|rewrite Hs; destruct (spec_suitable_ids e) as [|i ids']].
  - intros i. unfold spec_suitable_ids. rewrite in_map_iff. split.
    + intros ([i' defn] & <- & Hin). apply list_elem_of_In, list_elem_of_filter in Hin.
      destruct Hin as [[Hs1 Hs2] Hin]. exists defn.
      split; [by apply list_elem_of_In|]. done.
    + intros (defn & Hin & Hs1 & Hs2). exists (i, defn). split; [done|].
      apply list_elem_of_In, list_elem_of_filter. split; [by split|].
      by apply list_elem_of_In.
  - repeat split; try done.
    + intros [_ H]. done.
  - repeat split; try done.
    + by injection H.
    + by intros [-> _].
Qed.

Lemma ref_to_entry_narrows_witness :
  _ref_to_entry (new_formatter (Examples.fetcher_of [Examples.empty_then_full]) None)
                (mkEntryRef 2 (Some 1))
  = Ok (mkEntryRef 2 (Some 1),
        Examples.simple_entry 2 "ab" "ab"
          [(1, Examples.plain "second" (Some [CRef (mkEntryRef 1 None)]))]).
Proof.
  pose (fmt := new_formatter (Examples.fetcher_of [Examples.empty_then_full]) None).
  assert (Hd : ref_definition (mkEntryRef 2 (Some 1)) = Some 1) by reflexivity.
  assert (He : dictionary (_fetcher fmt) !! ref_id (mkEntryRef 2 (Some 1))
               = Some Examples.empty_then_full) by reflexivity.
  assert (Hwf : dict_wf (definitions Examples.empty_then_full)).
  { unfold dict_wf. apply (bool_decide_unpack _). reflexivity. }
  destruct (ref_to_entry_narrows fmt _ 1 _ Hd He Hwf) as [_ H].
  apply (H (Examples.plain "second" (Some [CRef (mkEntryRef 1 None)]))); reflexivity.
Defined.

(** ** Selection of the definition to expand *)

(** C4 (as the code has it). The builder expands the first definition, in
    stored order, whose component list is present (possibly empty) and which
    is not merged; the traversal of the entry is the loop over that list; if
    there is no such definition, or the list is empty, nothing is emitted. *)
Theorem components_definition_first_present (e : DictionaryEntry) :
  let skipped := fun d' => components d' = None \/ super_entry d' <> None in
  match components_definition e with
  | Some d =>
      (exists pre post, map snd (definitions e) = (pre ++ d :: post)%list
                        /\ Forall skipped pre)
      /\ components d <> None /\ super_entry d = None
      /\ (forall fuel f visited level,
            _build_components (S fuel) f e visited level
            = gen_for (component_step (_build_components fuel f) f e level)
                      (default [] (components d)) visited)
      /\ (components d = Some [] ->
          forall fuel f visited level,
            _build_components (S fuel) f e visited level
            = {| emitted := []; visited_after := visited; outcome := Finished |})
  | None =>
      Forall skipped (map snd (definitions e))
      /\ (forall fuel f visited level,
            _build_components (S fuel) f e visited level
            = {| emitted := []; visited_after := visited; outcome := Finished |})
  end.
Proof.
  intros skipped.
  assert (Hsk : forall l, Forall (fun y : EntryDefinition =>
                   bool_decide (components y <> None)
                   && bool_decide (super_entry y = None) = false) l ->
                 Forall skipped l).
  { intros l Hl. eapply Forall_impl; [exact Hl|]. intros d' H. unfold skipped.
    apply andb_false_iff in H as [H|H].
    - left. apply bool_decide_eq_false in H. by destruct (components d'); [destruct H|].
    - right. by apply bool_decide_eq_false in H. }
  pose proof (find_first (fun defn => bool_decide (components defn <> None)
                                      && bool_decide (super_entry defn = None))
                         (map snd (definitions e))) as Hf.
  unfold components_definition in *.
  destruct (List.find _ _) as [d|] eqn:E.
  - destruct Hf as (pre & post & Hl & Hp & Hpre).
    apply andb_true_iff in Hp as [Hc Hs].
    apply bool_decide_eq_true in Hc, Hs.
    split; [exists pre, post; auto|]. split; [done|]. split; [done|].
    assert (Hrun : forall fuel f visited level,
               _build_components (S fuel) f e visited level
               = gen_for (component_step (_build_components fuel f) f e level)
                         (default [] (components d)) visited).
    { intros. simpl. unfold components_definition. by rewrite E. }
    split; [exact Hrun|]. intros Hempty fuel f visited level.
    rewrite Hrun, Hempty. reflexivity.
  - split; [by apply Hsk|]. intros. simpl. unfold components_definition. by rewrite E.
Qed.

(** C4, the claim as worded fails: on an entry whose first definition has a
    present but empty component list and whose second lists entry 1, the
    code selects the first definition and emits nothing, whereas the
    definition with a non-empty list is the second one. *)
Lemma components_definition_empty_list_selected :
  components_definition Examples.empty_then_full = Some (Examples.plain "first" (Some []))
  /\ spec_components_definition Examples.empty_then_full
     = Some (Examples.plain "second" (Some [CRef (mkEntryRef 1 None)]))
  /\ components_definition Examples.empty_then_full
     <> spec_components_definition Examples.empty_then_full
  /\ gen_list (build_components
                 (Examples.fmt_of [Examples.naam; Examples.empty_then_full])
                 Examples.empty_then_full None) = Ok [].
Proof. vm_compute. repeat split; discriminate. Qed.

(** ** The simple word note *)

(** C5 (as the code has it). For the entry 1 "น้ำ" with Paiboon pronunciation
    "náam", one plain definition "water" and no audio, [entry_to_note]
    returns a note whose word field is "น้ำ[náam]" (the word followed by
    its pronunciation in square brackets), whose definition field is
    "water", whose extra field is empty and whose media map is empty,
    whether the reference names definition 0 or none. *)
Theorem entry_to_note_simple_word (f : DictionaryFetcher) (pt : option string)
    (d : option DefinitionId) (m : gmap string string) :
  get_entry f 1 = Ok Examples.naam ->
  pt = None \/ pt = Some "Paiboon" ->
  d = None \/ d = Some 0 ->
  entry_to_note (new_formatter f pt) (mkEntryRef 1 d) m
  = (Ok {| note_ref := mkEntryRef 1 d;
           word := "น้ำ[náam]";
           note_definition := "water";
           extra := "";
           media := ∅ |}, ∅).
Proof.
  intros Hf Hpt Hd.
  unfold entry_to_note, mbind, lift, _ref_to_entry, rbind.
  cbn [new_formatter _fetcher ref_id ref_definition].
  rewrite Hf. destruct Hpt as [-> | ->], Hd as [-> | ->]; reflexivity.
Qed.

Lemma entry_to_note_simple_word_witness :
  entry_to_note (new_formatter (Examples.fetcher_of [Examples.naam]) None)
                (mkEntryRef 1 None) ∅
  = (Ok {| note_ref := mkEntryRef 1 None;
           word := "น้ำ[náam]";
           note_definition := "water";
           extra := "";
           media := ∅ |}, ∅).
Proof.
  apply (entry_to_note_simple_word (Examples.fetcher_of [Examples.naam]) None None ∅);
    [reflexivity | by left | by left].
Defined.

(** C5, the claim as worded fails: the word field of that note is not the
    ruby markup. *)
Lemma entry_to_note_simple_word_not_ruby :
  exists note,
    fst (entry_to_note (new_formatter (Examples.fetcher_of [Examples.naam]) None)
                       (mkEntryRef 1 None) ∅) = Ok note
    /\ word note = "น้ำ[náam]"
    /\ word note <> "<ruby>น้ำ<rt>náam</rt></ruby>".
Proof. eexists. split; [reflexivity|]. split; [reflexivity | discriminate]. Qed.
(** ** Media registry: properties *)

Lemma use_media_name path media name media' :
  use_media path media = (Ok name, media') ->
  name = PyStr.replace "/" "_" path /\ media' !! name = Some path.
Proof.
  unfold use_media. intros H.
  destruct (media !! PyStr.replace "/" "_" path) as [old|] eqn:E.
  - destruct (decide (old = path)) as [->|]; [|discriminate].
    by injection H as <- <-.
  - injection H as <- <-. by rewrite lookup_insert_eq.
Qed.

(** C8. Registering a locator whose sanitized name (the locator with every
    "/" replaced by "_") is not in the map returns that name and records the
    name for the locator; registering a locator already recorded under its
    name returns the name and leaves the map as it is; registering a
    locator whose name is recorded for a different locator raises the
    assertion failure (the media name collision) and leaves the map
    untouched.  Hence, after any successful registration, the name is bound
    to the locator and nothing else was added, registering the same locator
    again returns the same name and the same map, and registering a
    different locator with the same sanitized name raises. *)
Theorem use_media_dedup_collision (path : string) (media : gmap string string) :
  let name := PyStr.replace "/" "_" path in
  (media !! name = None ->
   use_media path media = (Ok name, <[name := path]> media))
  /\ (media !! name = Some path -> use_media path media = (Ok name, media))
  /\ (forall other, media !! name = Some other -> other <> path ->
         use_media path media = (Raise AssertionError, media))
  /\ (forall name' media',
         use_media path media = (Ok name', media') ->
         name' = name
         /\ media' !! name' = Some path
         /\ media' = <[name' := path]> media
         /\ use_media path media' = (Ok name', media')
         /\ (forall other, other <> path -> PyStr.replace "/" "_" other = name' ->
               use_media other media' = (Raise AssertionError, media'))).
Proof.
  intros name. split; [|split; [|split]].
  - intros E. unfold use_media. fold name. by rewrite E.
  - intros E. unfold use_media. fold name. rewrite E. by rewrite decide_True.
  - intros other E Hne. unfold use_media. fold name. rewrite E.
    by rewrite decide_False.
  - intros name' media' H. destruct (use_media_name _ _ _ _ H) as [Hn Hl].
    fold name in Hn. split; [done|]. split; [done|]. split.
    + unfold use_media in H. fold name in H. rewrite <- Hn in H.
      destruct (media !! name') as [old|] eqn:E.
      * destruct (decide (old = path)) as [->|]; [|discriminate].
        injection H as <-. by rewrite insert_id.
      * by injection H as <-.
    + split.
      * unfold use_media. fold name. rewrite <- Hn, Hl. by rewrite decide_True.
      * intros other Hne Hs. unfold use_media. rewrite Hs, Hl.
        by rewrite decide_False.
Qed.

Lemma use_media_dedup_collision_witness :
  use_media "a/b.mp3" ∅ = (Ok "a_b.mp3", {["a_b.mp3" := "a/b.mp3"]})
  /\ use_media "a/b.mp3" {["a_b.mp3" := "a/b.mp3"]}
     = (Ok "a_b.mp3", {["a_b.mp3" := "a/b.mp3"]})
  /\ use_media "a_b.mp3" {["a_b.mp3" := "a/b.mp3"]}
     = (Raise AssertionError, {["a_b.mp3" := "a/b.mp3"]}).
Proof.
  destruct (use_media_dedup_collision "a/b.mp3" ∅) as (Hfresh & _ & _ & Hafter).
  assert (H : use_media "a/b.mp3" ∅ = (Ok "a_b.mp3", {["a_b.mp3" := "a/b.mp3"]})).
  { rewrite (Hfresh (lookup_empty _)). reflexivity. }
  destruct (Hafter _ _ H) as (_ & _ & _ & H2 & H3).
  split; [exact H|]. split; [exact H2|].
  apply H3; [discriminate | reflexivity].
Defined.

(** ** Media map across note builds *)

Lemma entry_to_note_unfold (fmt : NoteFormatter) (r : EntryRef) (m : gmap string string) :
  entry_to_note fmt r m =
  match _ref_to_entry fmt r with
  | Raise err => (Raise err, m)
  | Ok (real_ref, e) =>
      match format_word_field fmt e ∅ with
      | (Raise err, m1) => (Raise err, m1)
      | (Ok word_str, m1) =>
          match format_definition_field e with
          | Raise err => (Raise err, m1)
          | Ok definition_str =>
              match format_extra_field fmt e with
              | Raise err => (Raise err, m1)
              | Ok extra_str =>
                  (Ok {| note_ref := real_ref; word := word_str;
                         note_definition := definition_str;
                         extra := extra_str; media := m1 |}, ∅)
              end
          end
      end
  end.
Proof.
  unfold entry_to_note, mbind, lift, media_clear, media_copy, mret.
  destruct (_ref_to_entry fmt r) as [[real_ref e]|err]; [|reflexivity].
  destruct (format_word_field fmt e ∅) as [[word_str|err] m1]; [|reflexivity].
  destruct (format_definition_field e); [|reflexivity].
  destruct (format_extra_field fmt e); reflexivity.
Qed.

Lemma cloze_to_note_media (ext : Externals) (fmt : NoteFormatter) (raw : string)
    (m : gmap string string) :
  snd (cloze_to_note ext fmt raw m) = m
  /\ fst (cloze_to_note ext fmt raw m) = fst (cloze_to_note ext fmt raw ∅)
  /\ (forall note, fst (cloze_to_note ext fmt raw m) = Ok note -> cloze_media note = ∅).
Proof.
  unfold cloze_to_note, mbind, lift, mret.
  destruct (replace_inline_refs ext (_fetcher fmt) _ raw []) as [[ids entries]|err];
    [|by repeat split].
  destruct (replace_inline_refs ext (_fetcher fmt) _ ids ()) as [[cl u]|err];
    [|by repeat split].
  destruct (format_cloze_extra_field fmt entries) as [x|err]; [|by repeat split].
  simpl. repeat split. intros note H. by injection H as <-.
Qed.

(** C3 (as the code has it). [entry_to_note] empties the media map once the
    reference is resolved and again before it returns a note, so the note it
    returns (or the exception it raises) does not depend on the map it
    found, the note's media are exactly what its own word field registered
    starting from the empty map, and the map is empty afterwards.
    [cloze_to_note] neither reads nor changes the media map: the map is
    afterwards what it was before, the result does not depend on it, and the
    returned note carries an empty media map. *)
Theorem note_builds_media_isolated (ext : Externals) (fmt : NoteFormatter) :
  (forall r m1 m2, fst (entry_to_note fmt r m1) = fst (entry_to_note fmt r m2))
  /\ (forall r m note m',
        entry_to_note fmt r m = (Ok note, m') ->
        m' = ∅ /\ exists e, _ref_to_entry fmt r = Ok (note_ref note, e)
                            /\ format_word_field fmt e ∅ = (Ok (word note), media note))
  /\ (forall raw m, snd (cloze_to_note ext fmt raw m) = m)
  /\ (forall raw m1 m2,
        fst (cloze_to_note ext fmt raw m1) = fst (cloze_to_note ext fmt raw m2))
  /\ (forall raw m note,
        fst (cloze_to_note ext fmt raw m) = Ok note -> cloze_media note = ∅).
Proof.
  split; [|split; [|split; [|split]]].
  - intros r m1 m2. rewrite !entry_to_note_unfold.
    destruct (_ref_to_entry fmt r) as [[real_ref e]|err]; [|reflexivity].
    reflexivity.
  - intros r m note m'. rewrite entry_to_note_unfold.
    destruct (_ref_to_entry fmt r) as [[real_ref e]|err]; [|discriminate].
    destruct (format_word_field fmt e ∅) as [[word_str|err] m1] eqn:Ew; [|discriminate].
    destruct (format_definition_field e); [|discriminate].
    destruct (format_extra_field fmt e); [|discriminate].
    intros H. injection H as <- <-. split; [done|]. exists e. by rewrite Ew.
  - intros raw m. apply cloze_to_note_media.
  - intros raw m1 m2.
    destruct (cloze_to_note_media ext fmt raw m1) as (_ & -> & _).
    by destruct (cloze_to_note_media ext fmt raw m2) as (_ & -> & _).
  - intros raw m. apply cloze_to_note_media.
Qed.

(** C3, the claim as worded fails.  A note build that raises after its word
    field registered the audio leaves that registration in the map, and a
    following [cloze_to_note] does not empty the map, neither when it starts
    nor when it ends: the registration is still there when it has returned. *)
Lemma cloze_to_note_does_not_clear_media :
  entry_to_note (Examples.fmt_of [Examples.alphabet]) (mkEntryRef 4 None) ∅
  = (Raise (RuntimeError "No suitable definitions found"),
     {["x_y.mp3" := "x/y.mp3"]})
  /\ cloze_to_note Examples.ext_none (Examples.fmt_of [Examples.alphabet])
                   "plain [[text]]" {["x_y.mp3" := "x/y.mp3"]}
     = (Ok {| inline_ids := "plain [[text]]"; cloze := "plain [[text]]";
              cloze_extra := ""; cloze_media := ∅ |},
        {["x_y.mp3" := "x/y.mp3"]})
  /\ ({["x_y.mp3" := "x/y.mp3"]} : gmap string string) <> ∅.
Proof.
  split; [reflexivity|]. split; [reflexivity|].
  intros H. apply (f_equal (fun m : gmap string string => m !! "x_y.mp3")) in H.
  discriminate H.
Qed.

(** ** Reference codec *)

Lemma app_String (c : ascii) (a b : string) : String c a ++ b = String c (a ++ b).
Proof. reflexivity. Qed.

Lemma app_empty (b : string) : "" ++ b = b.
Proof. reflexivity. Qed.

Lemma strip_prefix_app (p s r : string) :
  strip_prefix p s = Some r -> s = p ++ r.
Proof.
  revert s. induction p as [|c p IH]; intros s; simpl.
  - by intros [= ->].
  - destruct s as [|c' s']; [discriminate|].
    destruct (Ascii.eqb c c') eqn:E; [|discriminate].
    apply Ascii.eqb_eq in E as <-. intros H. by rewrite (IH _ H).
Qed.

Lemma span_contents_app (s a b : string) :
  span_contents s = (a, b) -> s = a ++ b.
Proof.
  revert a b. induction s as [|c s IH]; intros a b; simpl.
  - by intros [= <- <-].
  - destruct (Ascii.eqb c "]").
    + by intros [= <- <-].
    + destruct (span_contents s) as [a' b']. intros [= <- <-].
      rewrite app_String. f_equal. by apply IH.
Qed.

Lemma string_app_assoc (a b c : string) : (a ++ b) ++ c = a ++ (b ++ c).
Proof. induction a as [|x a IH]; [done|]. rewrite !app_String. by rewrite IH. Qed.

(** A match is a prefix of the text it is found in, and starts with the two
    opening brackets. *)
Lemma regex_match_prefix (s : string) (m : Match) :
  _INLINE_REF_REGEX s = Some m ->
  exists g rest, group0 m = String "[" g /\ s = group0 m ++ rest.
Proof.
  unfold _INLINE_REF_REGEX.
  destruct (strip_prefix "[[" s) as [rest|] eqn:E1; [|discriminate].
  apply strip_prefix_app in E1.
  destruct (match strip_prefix "!" rest with
            | Some r => (Some "!", r)
            | None => (None, rest)
            end) as [cap rest1] eqn:E2.
  destruct (span_contents rest1) as [contents rest2] eqn:E3.
  apply span_contents_app in E3.
  destruct (strip_prefix "]]" rest2) as [rest3|] eqn:E4; [|discriminate].
  apply strip_prefix_app in E4. intros [= <-]. simpl.
  eexists _, rest3. split; [reflexivity|].
  assert (Hr : rest = default "" cap ++ rest1).
  { destruct (strip_prefix "!" rest) as [r|] eqn:E5.
    - injection E2 as <- <-. by apply strip_prefix_app in E5.
    - by injection E2 as <- <-. }
  rewrite E1, Hr, E3, E4.
  rewrite !string_app_assoc. reflexivity.
Qed.

Lemma str_drop_0 (s : string) : str_drop 0 s = s.
Proof. by destruct s. Qed.

Lemma str_drop_app (a b : string) : str_drop (String.length a) (a ++ b) = b.
Proof. induction a as [|c a IH]; [apply str_drop_0 | exact IH]. Qed.

Lemma pieces_text_cons (p : Piece) (ps : list Piece) :
  pieces_text (p :: ps) = piece_text p ++ pieces_text ps.
Proof. reflexivity. Qed.

(** The pieces of a text, put back together, are the text. *)
Lemma scan_text_drop (s : string) : forall k, pieces_text (scan k s) = str_drop k s.
Proof.
  induction s as [|c s IH]; intros k.
  - by destruct k.
  - destruct k as [|k]; [|apply IH]. cbn [scan].
    destruct (_INLINE_REF_REGEX (String c s)) as [m|] eqn:E.
    + destruct (regex_match_prefix _ _ E) as (g & rest & Hg & Hs).
      rewrite pieces_text_cons, IH. cbn [piece_text str_drop].
      rewrite Hg in Hs |- *. rewrite app_String in Hs.
      injection Hs as Hc Hs. subst c s.
      rewrite app_String. f_equal. cbn [String.length].
      rewrite Nat.sub_succ, Nat.sub_0_r. by rewrite str_drop_app.
    + rewrite pieces_text_cons, IH, str_drop_0. reflexivity.
Qed.

Lemma scan_text (s : string) : pieces_text (scan 0 s) = s.
Proof. rewrite scan_text_drop. apply str_drop_0. Qed.

Lemma pieces_text_app (a b : list Piece) :
  pieces_text (a ++ b) = pieces_text a ++ pieces_text b.
Proof.
  induction a as [|p a IH]; [done|].
  rewrite <- app_comm_cons, !pieces_text_cons, IH. by rewrite string_app_assoc.
Qed.

Lemma sub_pieces_app {St} (repl : Callback St Match) (a b : list Piece) (st : St) :
  sub_pieces repl (a ++ b) st =
  ('(x, st1) <-? sub_pieces repl a st;
   '(y, st2) <-? sub_pieces repl b st1;
   Ok (x ++ y, st2))%result.
Proof.
  revert st. induction a as [|p a IH]; intros st; simpl.
  - by destruct (sub_pieces repl b st) as [[y st2]|].
  - destruct p as [c|m].
    + rewrite IH. destruct (sub_pieces repl a st) as [[x st1]|]; simpl; [|done].
      by destruct (sub_pieces repl b st1) as [[y st2]|].
    + destruct (repl m st) as [[r st0]|]; simpl; [|done].
      rewrite IH. destruct (sub_pieces repl a st0) as [[x st1]|]; simpl; [|done].
      destruct (sub_pieces repl b st1) as [[y st2]|]; simpl; [|done].
      by rewrite string_app_assoc.
Qed.

(** Substitution that replaces every match by itself gives the text back. *)
Lemma sub_pieces_identity {St} (repl : Callback St Match) (ps : list Piece) (st : St) :
  (forall m st', In (Occ m) ps -> repl m st' = Ok (group0 m, st')) ->
  sub_pieces repl ps st = Ok (pieces_text ps, st).
Proof.
  induction ps as [|p ps IH]; intros H; [done|].
  rewrite pieces_text_cons.
  assert (IH' := IH (fun m st' Hin => H m st' (or_intror Hin))).
  destruct p as [c|m]; cbn [sub_pieces].
  - rewrite IH'. reflexivity.
  - rewrite (H m st (or_introl eq_refl)). cbn [rbind]. rewrite IH'. reflexivity.
Qed.

Lemma sub_pieces_fails {St} (repl : Callback St Match) (ps : list Piece) (m : Match) :
  In (Occ m) ps -> (forall st, is_ok (repl m st) = false) ->
  forall st, is_ok (sub_pieces repl ps st) = false.
Proof.
  intros Hin Hm. induction ps as [|p ps IH]; intros st; [destruct Hin|].
  destruct Hin as [-> | Hin]; simpl.
  - specialize (Hm st). by destruct (repl m st).
  - destruct p as [c|m'].
    + specialize (IH Hin st). by destruct (sub_pieces repl ps st) as [[? ?]|].
    + destruct (repl m' st) as [[r st1]|]; simpl; [|done].
      specialize (IH Hin st1). by destruct (sub_pieces repl ps st1) as [[? ?]|].
Qed.

Lemma apply_unparsed {St} (ext : Externals) (f : DictionaryFetcher)
    (callback : Callback St InlineRef) (m : Match) (st : St) :
  parse_any_ref ext f (group_contents m) = [] ->
  apply ext f callback m st = Ok (group0 m, st).
Proof. intros H. unfold apply. by rewrite H. Qed.

(** C9. An occurrence whose content the grammar parses to no candidate is
    replaced by its own text: [apply] returns the whole match and the
    caller's state untouched whatever the callback is (it is not called);
    in the output of [replace_inline_refs] the occurrence stands, unchanged,
    between the substitutions of what precedes and what follows it; and a
    text all of whose occurrences are unparsed is returned as it is. *)
Theorem replace_inline_refs_pass_through {St : Type} (ext : Externals)
    (f : DictionaryFetcher) (callback : Callback St InlineRef) :
  (forall m st, parse_any_ref ext f (group_contents m) = [] ->
                apply ext f callback m st = Ok (group0 m, st))
  /\ (forall text pre m post st,
        scan 0 text = (pre ++ Occ m :: post)%list ->
        parse_any_ref ext f (group_contents m) = [] ->
        text = pieces_text pre ++ group0 m ++ pieces_text post
        /\ replace_inline_refs ext f callback text st =
           ('(a, st1) <-? sub_pieces (apply ext f callback) pre st;
            '(b, st2) <-? sub_pieces (apply ext f callback) post st1;
            Ok (a ++ group0 m ++ b, st2))%result)
  /\ (forall text st,
        (forall m, In (Occ m) (scan 0 text) -> parse_any_ref ext f (group_contents m) = []) ->
        replace_inline_refs ext f callback text st = Ok (text, st)).
Proof.
  split; [intros; by apply apply_unparsed|]. split.
  - intros text pre m post st Hscan Hp. split.
    + rewrite <- (scan_text text) at 1. rewrite Hscan, pieces_text_app. reflexivity.
    + unfold replace_inline_refs, regex_sub. rewrite Hscan, sub_pieces_app.
      destruct (sub_pieces (apply ext f callback) pre st) as [[a st1]|]; simpl; [|done].
      rewrite (apply_unparsed _ _ _ _ _ Hp). simpl.
      by destruct (sub_pieces (apply ext f callback) post st1) as [[b st2]|].
  - intros text st H. unfold replace_inline_refs, regex_sub.
    rewrite sub_pieces_identity; [by rewrite scan_text|].
    intros m st' Hin. apply apply_unparsed. by apply H.
Qed.

(** C10. On a match with empty content for which the grammar returns a
    candidate, [apply] raises IndexError (the first character of the content
    is read without a check), whatever the callback; so a text with such an
    occurrence is never substituted successfully, and conversely whenever
    [replace_inline_refs] returns normally the grammar returned no candidate
    for the empty content of any occurrence that has one. *)
Theorem replace_inline_refs_empty_contents {St : Type} (ext : Externals)
    (f : DictionaryFetcher) (callback : Callback St InlineRef) :
  (forall m st, group_contents m = "" -> parse_any_ref ext f "" <> [] ->
                apply ext f callback m st = Raise IndexError)
  /\ (forall text st m,
        In (Occ m) (scan 0 text) -> group_contents m = "" ->
        parse_any_ref ext f "" <> [] ->
        is_ok (replace_inline_refs ext f callback text st) = false)
  /\ (forall text st m,
        is_ok (replace_inline_refs ext f callback text st) = true ->
        In (Occ m) (scan 0 text) -> group_contents m = "" ->
        parse_any_ref ext f "" = []).
Proof.
  assert (Ha : forall m st, group_contents m = "" -> parse_any_ref ext f "" <> [] ->
                            apply ext f callback m st = Raise IndexError).
  { intros m st Hc Hp. unfold apply. rewrite Hc.
    by destruct (parse_any_ref ext f ""). }
  assert (Hb : forall text st m,
             In (Occ m) (scan 0 text) -> group_contents m = "" ->
             parse_any_ref ext f "" <> [] ->
             is_ok (replace_inline_refs ext f callback text st) = false).
  { intros text st m Hin Hc Hp. unfold replace_inline_refs, regex_sub.
    apply (sub_pieces_fails _ _ m Hin). intros st'. by rewrite Ha. }
  split; [exact Ha|]. split; [exact Hb|].
  intros text st m Hok Hin Hc.
  destruct (decide (parse_any_ref ext f "" = [])) as [|Hne]; [done|].
  rewrite (Hb text st m Hin Hc Hne) in Hok. discriminate.
Qed.

(** C10 on a concrete text: with a grammar that resolves every content, the
    empty reference makes the substitution raise IndexError. *)
Example replace_inline_refs_empty_raises :
  replace_inline_refs Examples.ext_all (Examples.fetcher_of [Examples.naam])
    (fun (r : InlineRef) (st : unit) => Ok ("x", st)) "a [[]] b" tt
  = Raise IndexError.
Proof. reflexivity. Qed.

(** ** Component graph builder: what a generator leaves behind *)

Lemma gen_ok_grows v g : gen_ok v g -> v ⊆ visited_after g.
Proof. intros (-> & _ & _). set_solver. Qed.

Lemma gen_ok_then v g k :
  gen_ok v g -> (forall v', gen_ok v' (k v')) -> gen_ok v (gen_then g k).
Proof.
  intros Hg Hk. unfold gen_then. destruct (outcome g); [|done..].
  specialize (Hk (visited_after g)).
  destruct Hg as (Hv & Hnd & Hfresh), Hk as (Hv' & Hnd' & Hfresh').
  unfold gen_ok, yielded_refs in *. cbn [emitted visited_after].
  rewrite map_app. split; [|split].
  - rewrite Hv', Hv, list_to_set_app_L. set_solver.
  - apply NoDup_app. split; [done|]. split; [|done].
    intros r Hr Hr'. apply Hfresh' in Hr'. apply Hr'. rewrite Hv.
    apply elem_of_union_l, elem_of_list_to_set. exact Hr.
  - intros r Hr. apply elem_of_app in Hr as [Hr|Hr]; [by apply Hfresh|].
    apply Hfresh' in Hr. rewrite Hv in Hr. set_solver.
Qed.

Lemma gen_ok_stop v o :
  gen_ok v {| emitted := []; visited_after := v; outcome := o |}.
Proof.
  unfold gen_ok, yielded_refs. cbn. split; [set_solver|]. split; [constructor|].
  intros r Hr. by apply elem_of_nil in Hr.
Qed.

Lemma gen_ok_for {A} (step : A -> gset EntryRef -> Gen) (xs : list A) :
  (forall x v, gen_ok v (step x v)) -> forall v, gen_ok v (gen_for step xs v).
Proof.
  intros Hstep. induction xs as [|x xs IH]; intros v; cbn [gen_for].
  - apply gen_ok_stop.
  - by apply gen_ok_then.
Qed.

Lemma gen_ok_component_with expand f r component v level emit :
  (forall e v' l, gen_ok v' (expand e v' l)) ->
  gen_ok v (_build_component_with expand f r component v level emit).
Proof.
  intros Hex. unfold _build_component_with.
  set (defn := default (first_definition component) (ref_definition r)).
  set (comp_ref := mkEntryRef (entry_id component) (Some defn)).
  destruct (decide (comp_ref ∈ v)) as [Hin|Hnin]; [apply gen_ok_stop|].
  destruct (getitem (definitions component) defn) as [d|err]; [|apply gen_ok_stop].
  destruct (match super_entry d with
            | Some _ => get_super_entry f component defn
            | None => Ok component
            end) as [comp_entry|err]; [|apply gen_ok_stop].
  assert (Hy : gen_ok v {| emitted := [ {| wc_id := entry_id component;
                                            wc_definition := defn;
                                            wc_entry := comp_entry;
                                            wc_level := level |} ];
                           visited_after := {[comp_ref]} ∪ v;
                           outcome := Finished |}).
  { unfold gen_ok, yielded_refs, wc_ref. cbn. fold comp_ref.
    split; [set_solver|]. split.
    - apply NoDup_singleton.
    - intros r' Hr'. apply list_elem_of_singleton in Hr' as ->. exact Hnin. }
  destruct emit; [|exact Hy].
  apply gen_ok_then; [exact Hy|]. intros v'. apply Hex.
Qed.

Lemma gen_ok_component_step expand f e level rel v :
  (forall e' v' l, gen_ok v' (expand e' v' l)) ->
  gen_ok v (component_step expand f e level rel v).
Proof.
  intros Hex. unfold component_step.
  destruct (get_entry f _) as [component|err]; [|apply gen_ok_stop].
  by apply gen_ok_component_with.
Qed.

Lemma gen_ok_build_components fuel f :
  forall e v level, gen_ok v (_build_components fuel f e v level).
Proof.
  induction fuel as [|fuel IH]; intros e v level; cbn [_build_components].
  - apply gen_ok_stop.
  - destruct (components_definition e) as [cd|]; [|apply gen_ok_stop].
    apply gen_ok_for. intros rel v'. by apply gen_ok_component_step.
Qed.

(** ** Component graph builder: the recursion depth is bounded *)

Lemma unvisited_mono f v v' : v ⊆ v' -> (unvisited f v' <= unvisited f v)%nat.
Proof. intros H. apply subseteq_size. set_solver. Qed.

Lemma unvisited_le_universe f v : (unvisited f v <= size (universe f))%nat.
Proof. apply subseteq_size. set_solver. Qed.

Lemma unvisited_add f v p :
  p ∈ universe f -> p ∉ v -> (unvisited f ({[p]} ∪ v) < unvisited f v)%nat.
Proof.
  intros Hu Hv. apply subset_size. split; [set_solver|].
  intros H. assert (Hp : p ∈ universe f ∖ v) by set_solver.
  apply H in Hp. set_solver.
Qed.

Lemma entry_ref_in_universe f i component d x :
  dictionary f !! i = Some component ->
  assoc d (definitions component) = Some x ->
  mkEntryRef (entry_id component) (Some d) ∈ universe f.
Proof.
  intros Hi Hd. unfold universe. apply elem_of_list_to_set, list_elem_of_In.
  apply in_flat_map. exists (i, component). split.
  - apply list_elem_of_In, elem_of_map_to_list. exact Hi.
  - unfold entry_refs. cbn. apply in_map_iff. exists (d, x).
    split; [reflexivity | by apply assoc_Some_In].
Qed.

Lemma finite_then g k :
  outcome g <> OutOfFuel ->
  (outcome g = Finished -> outcome (k (visited_after g)) <> OutOfFuel) ->
  outcome (gen_then g k) <> OutOfFuel.
Proof.
  intros Hg Hk. unfold gen_then. destruct (outcome g) eqn:E; [|by rewrite E..].
  cbn. by apply Hk.
Qed.

Lemma finite_for {A} f n (step : A -> gset EntryRef -> Gen) (xs : list A) :
  (forall x v, gen_ok v (step x v)) ->
  (forall x v, (unvisited f v <= n)%nat -> outcome (step x v) <> OutOfFuel) ->
  forall v, (unvisited f v <= n)%nat -> outcome (gen_for step xs v) <> OutOfFuel.
Proof.
  intros Hok Hstep. induction xs as [|x xs IH]; intros v Hv; cbn [gen_for]; [done|].
  apply finite_then; [by apply Hstep|]. intros _. apply IH.
  pose proof (unvisited_mono f _ _ (gen_ok_grows _ _ (Hok x v))). lia.
Qed.

(** [_build_component] on a component the fetcher returned: the expansion
    it starts runs on strictly fewer unvisited pairs. *)
Lemma finite_component_with expand f n i r component v level emit :
  dictionary f !! i = Some component ->
  (forall e v' l, (unvisited f v' < n)%nat -> outcome (expand e v' l) <> OutOfFuel) ->
  (unvisited f v <= n)%nat ->
  outcome (_build_component_with expand f r component v level emit) <> OutOfFuel.
Proof.
  intros Hi Hex Hv. unfold _build_component_with.
  set (defn := default (first_definition component) (ref_definition r)).
  set (comp_ref := mkEntryRef (entry_id component) (Some defn)).
  destruct (decide (comp_ref ∈ v)) as [Hin|Hnin]; [done|].
  unfold getitem.
  destruct (assoc defn (definitions component)) as [d|] eqn:Ed; [|done].
  destruct (match super_entry d with
            | Some _ => get_super_entry f component defn
            | None => Ok component
            end) as [comp_entry|err]; [|done].
  destruct emit; [|done].
  apply finite_then; [done|]. intros _. cbn [visited_after]. apply Hex.
  pose proof (unvisited_add f v comp_ref
                (entry_ref_in_universe f i component defn d Hi Ed) Hnin). lia.
Qed.

Lemma finite_build_components fuel f :
  forall e v level,
    (unvisited f v < fuel)%nat ->
    outcome (_build_components fuel f e v level) <> OutOfFuel.
Proof.
  induction fuel as [|fuel IH]; intros e v level Hv; [lia|].
  cbn [_build_components].
  destruct (components_definition e) as [cd|]; [|done].
  apply (finite_for f fuel); [| |lia].
  - intros rel v'. apply gen_ok_component_step. intros. apply gen_ok_build_components.
  - intros rel v' Hv'. unfold component_step, get_entry.
    destruct (dictionary f !! _) as [component|] eqn:Ei; [|done].
    by apply (finite_component_with _ f fuel _ _ component _ _ _ Ei).
Qed.

(** The top-level [_build_component] may be given an entry that is not in
    the dictionary (a narrowed or merged view); its expansion still runs on
    no more unvisited pairs than there were. *)
Lemma finite_build_component fuel f r component v level emit :
  (unvisited f v < fuel)%nat ->
  outcome (_build_component fuel f r component v level emit) <> OutOfFuel.
Proof.
  intros Hv. unfold _build_component, _build_component_with.
  destruct (decide (_ ∈ v)); [done|].
  destruct (getitem _ _) as [d|]; [|done].
  destruct (match super_entry d with Some _ => _ | None => _ end) as [ce|]; [|done].
  destruct emit; [|done].
  apply finite_then; [done|]. intros _. cbn [visited_after].
  apply finite_build_components.
  eapply Nat.le_lt_trans; [apply unvisited_mono | exact Hv]. set_solver.
Qed.

(** ** Component graph builder: more fuel changes nothing *)

Lemma stable_then g k1 k2 :
  (outcome g = Finished -> outcome (k1 (visited_after g)) <> OutOfFuel ->
   k2 (visited_after g) = k1 (visited_after g)) ->
  outcome (gen_then g k1) <> OutOfFuel ->
  gen_then g k2 = gen_then g k1.
Proof.
  unfold gen_then. destruct (outcome g); [|done..].
  cbn [outcome]. intros H Hk. by rewrite H.
Qed.

Lemma stable_for {A} (step1 step2 : A -> gset EntryRef -> Gen) (xs : list A) :
  (forall x v, outcome (step1 x v) <> OutOfFuel -> step2 x v = step1 x v) ->
  forall v, outcome (gen_for step1 xs v) <> OutOfFuel ->
            gen_for step2 xs v = gen_for step1 xs v.
Proof.
  intros Hstep. induction xs as [|x xs IH]; intros v H; cbn [gen_for] in *; [done|].
  assert (Hx : outcome (step1 x v) <> OutOfFuel).
  { intros E. apply H. unfold gen_then. by rewrite E. }
  rewrite (Hstep x v Hx). apply stable_then; [|done]. intros _ H'. by apply IH.
Qed.

Lemma stable_component_with expand1 expand2 f r component v level emit :
  (forall e v' l, outcome (expand1 e v' l) <> OutOfFuel ->
                  expand2 e v' l = expand1 e v' l) ->
  outcome (_build_component_with expand1 f r component v level emit) <> OutOfFuel ->
  _build_component_with expand2 f r component v level emit
  = _build_component_with expand1 f r component v level emit.
Proof.
  intros Hex. unfold _build_component_with.
  destruct (decide (_ ∈ v)); [done|].
  destruct (getitem _ _) as [d|]; [|done].
  destruct (match super_entry d with Some _ => _ | None => _ end) as [ce|]; [|done].
  destruct emit; [|done].
  intros H. apply stable_then; [|done]. intros _ H'. by apply Hex.
Qed.

Lemma stable_build_components n f :
  forall m e v level,
    (n <= m)%nat ->
    outcome (_build_components n f e v level) <> OutOfFuel ->
    _build_components m f e v level = _build_components n f e v level.
Proof.
  induction n as [|n IH]; intros m e v level Hm H; [done|].
  destruct m as [|m]; [lia|]. cbn [_build_components] in *.
  destruct (components_definition e) as [cd|]; [|done].
  apply stable_for; [|done]. intros rel v' Hs. unfold component_step in *.
  destruct (get_entry f _) as [component|]; [|done].
  apply stable_component_with; [|done]. intros. apply IH; [lia|done].
Qed.

Lemma traversal_fuel_enough f v : (unvisited f v < traversal_fuel f)%nat.
Proof. unfold traversal_fuel. pose proof (unvisited_le_universe f v). lia. Qed.

Lemma build_component_skips_visited expand f r component v level emit :
  mkEntryRef (entry_id component)
             (Some (default (first_definition component) (ref_definition r))) ∈ v ->
  _build_component_with expand f r component v level emit
  = {| emitted := []; visited_after := v; outcome := Finished |}.
Proof. intros H. unfold _build_component_with. by rewrite decide_True. Qed.

(** C1. On every dictionary (cyclic or not) and from every [visited] set,
    [build_components], [build_component] and the chain of
    [build_component] runs of a cloze note stop: the generator finishes or
    raises within the recursion depth [traversal_fuel], and any larger depth
    gives the same result.  What it yields is a list whose
    (entry id, definition id) pairs are pairwise distinct and were not in
    [visited] at the start, and the set it leaves is [visited] plus those
    pairs.  A component whose pair is already in [visited] yields nothing
    and is not expanded. *)
Theorem traversal_terminates_no_repeats (fmt : NoteFormatter)
    (visited : option (gset EntryRef)) :
  let f := _fetcher fmt in
  let v := default ∅ visited in
  (forall e,
      let g := build_components fmt e visited in
      outcome g <> OutOfFuel
      /\ (forall fuel, (traversal_fuel f <= fuel)%nat ->
                       _build_components fuel f e v 0 = g)
      /\ NoDup (yielded_refs g)
      /\ (forall p, p ∈ yielded_refs g -> p ∉ v)
      /\ visited_after g = list_to_set (yielded_refs g) ∪ v)
  /\ (forall r e,
        let g := build_component fmt r e visited in
        outcome g <> OutOfFuel
        /\ (forall fuel, (traversal_fuel f <= fuel)%nat ->
                         _build_component fuel f r e v 0 true = g)
        /\ NoDup (yielded_refs g)
        /\ (forall p, p ∈ yielded_refs g -> p ∉ v)
        /\ visited_after g = list_to_set (yielded_refs g) ∪ v)
  /\ (forall entries,
        let g := cloze_components fmt entries v in
        outcome g <> OutOfFuel
        /\ NoDup (yielded_refs g)
        /\ (forall p, p ∈ yielded_refs g -> p ∉ v)
        /\ visited_after g = list_to_set (yielded_refs g) ∪ v)
  /\ (forall expand r component w level emit,
        mkEntryRef (entry_id component)
                   (Some (default (first_definition component) (ref_definition r))) ∈ w ->
        _build_component_with expand f r component w level emit
        = {| emitted := []; visited_after := w; outcome := Finished |}).
Proof.
  intros f v.
  assert (Hcomp : forall r e w level emit fuel,
             gen_ok w (_build_component fuel f r e w level emit)).
  { intros. apply gen_ok_component_with. intros. apply gen_ok_build_components. }
  split; [|split; [|split]].
  - intros e g.
    assert (Hfin : outcome g <> OutOfFuel).
    { apply finite_build_components, traversal_fuel_enough. }
    destruct (gen_ok_build_components (traversal_fuel f) f e v 0) as (Hv & Hnd & Hfresh).
    split; [exact Hfin|]. split; [|by repeat split].
    intros fuel Hfuel. by apply stable_build_components.
  - intros r e g.
    assert (Hfin : outcome g <> OutOfFuel).
    { apply finite_build_component, traversal_fuel_enough. }
    destruct (Hcomp r e v 0%nat true (traversal_fuel f)) as (Hv & Hnd & Hfresh).
    split; [exact Hfin|]. split; [|by repeat split].
    intros fuel Hfuel. unfold _build_component.
    apply stable_component_with; [|exact Hfin].
    intros e' v' l H. by apply stable_build_components.
  - intros entries g.
    assert (Hok : forall w, gen_ok w (cloze_components fmt entries w)).
    { apply gen_ok_for. intros [r e] w. apply Hcomp. }
    destruct (Hok v) as (Hv & Hnd & Hfresh).
    split; [|by repeat split].
    apply (finite_for f (size (universe f))).
    + intros [r e] w. apply Hcomp.
    + intros [r e] w _. apply finite_build_component, traversal_fuel_enough.
    + apply unvisited_le_universe.
  - intros. by apply build_component_skips_visited.
Qed.

(** C1 on a dictionary with the cycle 10 -> 11 -> 10: expanding entry 10
    yields entry 11, then entry 10 below it, and stops there. *)
Example cycle_traversal_stops :
  gen_list (build_components (Examples.fmt_of [Examples.cyc_a; Examples.cyc_b])
                             Examples.cyc_a None)
  = Ok [ {| wc_id := 11; wc_definition := 0; wc_entry := Examples.cyc_b; wc_level := 0 |};
         {| wc_id := 10; wc_definition := 0; wc_entry := Examples.cyc_a; wc_level := 1 |} ].
Proof. reflexivity. Qed.

(** ** Self-references *)

(** The reference a component stands for: [SELF_REFERENCE] is the enclosing
    entry with no definition given. *)
Lemma component_step_self_unfold expand f e level rel v rel_ref :
  rel_ref = match rel with
            | SELF_REFERENCE => mkEntryRef (entry_id e) None
            | CRef r => r
            end ->
  ref_id rel_ref = entry_id e ->
  component_step expand f e level rel v =
  match get_entry f (entry_id e) with
  | Raise err => gen_raise err v
  | Ok component => _build_component_with expand f rel_ref component v level false
  end.
Proof.
  intros -> Hid. unfold component_step. rewrite Hid.
  destruct (get_entry f (entry_id e)); [|done]. by rewrite Z.eqb_refl.
Qed.

(** C2 (as the code has it). A component that is a self-reference, or whose
    id is the enclosing entry's id, is never expanded: the step of the loop
    does not call the expansion at all (any two expansion functions give the
    same step).  It yields at most one WordComponent: none when fetching the
    entry raises (the step ends with that exception and the set as it was),
    none when its pair is already visited (the set is left as it was), none
    when resolving it raises, and otherwise exactly one, at the level of the
    loop, recording the pair. *)
Theorem self_reference_not_expanded
    (expand : DictionaryEntry -> gset EntryRef -> nat -> Gen)
    (f : DictionaryFetcher) (e : DictionaryEntry) (level : nat)
    (rel : ComponentRef) (v : gset EntryRef) (rel_ref : EntryRef) :
  rel_ref = match rel with
            | SELF_REFERENCE => mkEntryRef (entry_id e) None
            | CRef r => r
            end ->
  ref_id rel_ref = entry_id e ->
  let g := component_step expand f e level rel v in
  (forall expand', component_step expand' f e level rel v = g)
  /\ (length (emitted g) <= 1)%nat
  /\ (forall component,
        get_entry f (entry_id e) = Ok component ->
        let d := default (first_definition component) (ref_definition rel_ref) in
        let p := mkEntryRef (entry_id component) (Some d) in
        (p ∈ v -> g = {| emitted := []; visited_after := v; outcome := Finished |})
        /\ (p ∉ v ->
            match resolve_component f component d with
            | Ok comp_entry =>
                g = {| emitted := [ {| wc_id := entry_id component; wc_definition := d;
                                       wc_entry := comp_entry; wc_level := level |} ];
                       visited_after := {[p]} ∪ v;
                       outcome := Finished |}
            | Raise err => g = gen_raise err v
            end))
  /\ (forall err, get_entry f (entry_id e) = Raise err -> g = gen_raise err v).
Proof.
  intros Hrel Hid g.
  assert (Hg : forall ex, component_step ex f e level rel v =
                 match get_entry f (entry_id e) with
                 | Raise err => gen_raise err v
                 | Ok component =>
                     _build_component_with ex f rel_ref component v level false
                 end).
  { intros ex. by apply component_step_self_unfold. }
  assert (Hind : forall ex1 ex2 component,
             _build_component_with ex1 f rel_ref component v level false
             = _build_component_with ex2 f rel_ref component v level false).
  { intros. unfold _build_component_with.
    destruct (decide (_ ∈ v)); [done|].
    destruct (getitem _ _) as [d|]; [|done].
    by destruct (match super_entry d with Some _ => _ | None => _ end). }
  split; [|split; [|split]]; [| | |by intros err Herr; unfold g; rewrite Hg, Herr].
  - intros expand'. unfold g. rewrite !Hg.
    destruct (get_entry f (entry_id e)); [apply Hind | done].
  - unfold g. rewrite Hg. destruct (get_entry f (entry_id e)) as [component|]; [|cbn; lia].
    unfold _build_component_with.
    destruct (decide (_ ∈ v)); [cbn; lia|].
    destruct (getitem _ _) as [d|]; [|cbn; lia].
    destruct (match super_entry d with Some _ => _ | None => _ end); cbn; lia.
  - intros component Hc d p. unfold g. rewrite Hg, Hc. unfold _build_component_with.
    fold d. fold p. split.
    + intros Hp. by rewrite decide_True.
    + intros Hp. rewrite decide_False by done. unfold resolve_component.
      destruct (getitem _ _) as [dd|]; [|done]. cbn [rbind].
      by destruct (match super_entry dd with Some _ => _ | None => _ end) as [ce|].
Qed.

Lemma self_reference_not_expanded_witness :
  component_step Examples.no_expand (Examples.fetcher_of [Examples.selfish])
                 Examples.selfish 0 SELF_REFERENCE ∅
  = {| emitted := [ {| wc_id := 3; wc_definition := 0;
                       wc_entry := Examples.selfish; wc_level := 0 |} ];
       visited_after := {[mkEntryRef 3 (Some 0)]} ∪ ∅;
       outcome := Finished |}.
Proof.
  destruct (self_reference_not_expanded Examples.no_expand
              (Examples.fetcher_of [Examples.selfish]) Examples.selfish 0
              SELF_REFERENCE ∅ (mkEntryRef 3 None) eq_refl eq_refl) as (_ & _ & H & _).
  destruct (H Examples.selfish eq_refl) as (_ & H2).
  apply H2. apply not_elem_of_empty.
Defined.

(** C2, the claim as worded fails: when the pair of the self-reference is
    already visited, nothing at all is yielded for it.  This is what happens
    in a cloze note, where [build_component] yields the entry itself at
    level 0, records it, and the self-reference met while expanding the
    entry is then skipped. *)
Lemma self_reference_skipped_when_visited :
  components_definition Examples.selfish
  = Some (Examples.plain "self" (Some [SELF_REFERENCE]))
  /\ build_components (Examples.fmt_of [Examples.selfish]) Examples.selfish
                      (Some {[mkEntryRef 3 (Some 0)]})
     = {| emitted := []; visited_after := {[mkEntryRef 3 (Some 0)]};
          outcome := Finished |}
  /\ emitted (build_component (Examples.fmt_of [Examples.selfish])
                              (mkEntryRef 3 None) Examples.selfish None)
     = [ {| wc_id := 3; wc_definition := 0;
            wc_entry := Examples.selfish; wc_level := 0 |} ]
  /\ emitted (_build_components 5 (Examples.fetcher_of [Examples.selfish]) Examples.selfish
                {[mkEntryRef 3 (Some 0)]} 1) = [].
Proof. repeat split; reflexivity. Qed.

(** * Further properties of the module *)

(** ** Character-wise rewriting *)

Lemma str_flat_map_app f (a b : string) :
  str_flat_map f (a ++ b) = str_flat_map f a ++ str_flat_map f b.
Proof.
  induction a as [|c a IH]; [done|].
  rewrite app_String. cbn [str_flat_map]. by rewrite IH, string_app_assoc.
Qed.

Lemma str_flat_map_ext f g (s : string) :
  (forall c, f c = g c) -> str_flat_map f s = str_flat_map g s.
Proof. intros H. induction s as [|c s IH]; [done|]. cbn. by rewrite H, IH. Qed.

Lemma str_flat_map_compose f g (s : string) :
  str_flat_map g (str_flat_map f s) = str_flat_map (fun c => str_flat_map g (f c)) s.
Proof.
  induction s as [|c s IH]; [done|].
  cbn [str_flat_map]. by rewrite str_flat_map_app, IH.
Qed.

Lemma replace_flat_map old new (s : string) :
  PyStr.replace old new s
  = str_flat_map (fun c => if Ascii.eqb c old then new else String c "") s.
Proof.
  induction s as [|c s IH]; [done|]. cbn [PyStr.replace str_flat_map].
  rewrite IH. by destruct (Ascii.eqb c old).
Qed.

Lemma ascii_cases (P : ascii -> Prop) :
  (forall b0 b1 b2 b3 b4 b5 b6 b7, P (Ascii b0 b1 b2 b3 b4 b5 b6 b7)) -> forall c, P c.
Proof. intros H []. apply H. Qed.

Lemma escape_quoted_search_flat (s : string) :
  escape_quoted_search s = str_flat_map escape_char s.
Proof.
  unfold escape_quoted_search. rewrite !replace_flat_map, !str_flat_map_compose.
  apply str_flat_map_ext. apply ascii_cases.
  intros [] [] [] [] [] [] [] []; reflexivity.
Qed.

Lemma html_escape_flat (s : string) :
  PyStr.html_escape s = str_flat_map html_char s.
Proof.
  unfold PyStr.html_escape. rewrite !replace_flat_map, !str_flat_map_compose.
  apply str_flat_map_ext. apply ascii_cases.
  intros [] [] [] [] [] [] [] []; reflexivity.
Qed.

Lemma str_mem_app c (a b : string) : str_mem c (a ++ b) = str_mem c a || str_mem c b.
Proof.
  induction a as [|x a IH]; [done|].
  rewrite app_String. cbn [str_mem]. by rewrite IH, orb_assoc.
Qed.

Lemma str_mem_flat_map c f (s : string) :
  (forall x, Ascii.eqb x c = false -> str_mem c (f x) = false) ->
  str_mem c s = false -> str_mem c (str_flat_map f s) = false.
Proof.
  intros Hf. induction s as [|x s IH]; [done|]. cbn [str_mem str_flat_map].
  intros H. apply orb_false_iff in H as [Hx Hs].
  rewrite str_mem_app, (Hf x Hx), (IH Hs). reflexivity.
Qed.

Lemma str_mem_flat_map_never c f (s : string) :
  (forall x, str_mem c (f x) = false) -> str_mem c (str_flat_map f s) = false.
Proof.
  intros Hf. induction s as [|x s IH]; [done|]. cbn [str_flat_map].
  by rewrite str_mem_app, Hf, IH.
Qed.

(** ** Search-string escaping *)

(** X1. [escape_quoted_search] works character by character: a backslash,
    a double quote, an asterisk and an underscore each get one backslash in
    front, every other character is kept, and the backslashes inserted for
    one replacement are not escaped again by the next.  So escaping a
    concatenation is the concatenation of the escapings. *)
Theorem escape_quoted_search_chars (c : ascii) (a b : string) :
  escape_quoted_search "" = ""
  /\ escape_quoted_search (String c a) = escape_char c ++ escape_quoted_search a
  /\ escape_quoted_search (a ++ b) = escape_quoted_search a ++ escape_quoted_search b.
Proof.
  rewrite !escape_quoted_search_flat. split; [done|]. split; [done|].
  apply str_flat_map_app.
Qed.

(** X2. Escaping loses nothing: reading the backslash escapes of
    [escape_quoted_search s] gives [s] back, so two different texts never
    have the same escaped form. *)
Theorem escape_quoted_search_round_trip (s t : string) :
  unescape_quoted_search (escape_quoted_search s) = s
  /\ (escape_quoted_search s = escape_quoted_search t -> s = t).
Proof.
  assert (H : forall u, unescape_quoted_search (escape_quoted_search u) = u).
  { intros u. rewrite escape_quoted_search_flat.
    induction u as [|c u IH]; [done|]. cbn [str_flat_map]. unfold escape_char at 1.
    destruct (Ascii.eqb c "\") eqn:E1; cbn [orb].
    - rewrite !app_String, app_empty. cbn [unescape_quoted_search].
      rewrite Ascii.eqb_refl. by rewrite IH.
    - destruct (Ascii.eqb c "034" || Ascii.eqb c "*" || Ascii.eqb c "_").
      + rewrite !app_String, app_empty. cbn [unescape_quoted_search].
        rewrite Ascii.eqb_refl. by rewrite IH.
      + rewrite !app_String, app_empty. cbn [unescape_quoted_search].
        rewrite E1. by rewrite IH. }
  split; [apply H|]. intros E. rewrite <- (H s), <- (H t). by rewrite E.
Qed.

(** ** Pronunciation text *)

(** X3. [format_pronounciation] raises KeyError exactly when the entry has
    no pronunciation under the formatter's scheme; the text it returns
    contains no space and none of the characters "<", ">", double quote and
    apostrophe. *)
Theorem format_pronounciation_safe (fmt : NoteFormatter) (e : DictionaryEntry) :
  (assoc (_pronounciation_type fmt) (pronounciations e) = None <->
   format_pronounciation fmt e = Raise KeyError)
  /\ (is_ok (format_pronounciation fmt e) = false <->
      assoc (_pronounciation_type fmt) (pronounciations e) = None)
  /\ (forall p, format_pronounciation fmt e = Ok p ->
        str_mem " " p = false /\ str_mem "<" p = false /\ str_mem ">" p = false
        /\ str_mem "034" p = false /\ str_mem "'" p = false).
Proof.
  unfold format_pronounciation, getitem.
  destruct (assoc _ _) as [raw|]; cbn [rbind is_ok].
  - split; [split; discriminate|]. split; [split; discriminate|].
    intros p [= <-]. rewrite html_escape_flat.
    split; [|repeat split; apply str_mem_flat_map_never; apply ascii_cases;
             intros [] [] [] [] [] [] [] []; reflexivity].
    apply str_mem_flat_map.
    + intros [[] [] [] [] [] [] [] []]; vm_compute; intros H;
        (reflexivity || discriminate H).
    + rewrite replace_flat_map. apply str_mem_flat_map_never. apply ascii_cases.
      intros [] [] [] [] [] [] [] []; reflexivity.
  - split; [done|]. split; [done|]. discriminate.
Qed.

(** ** Media registry *)

(** X4. [use_media] only ever adds: every name bound before the call is
    bound to the same locator after it, whether the call returns or raises;
    and when it raises, the map is exactly what it was. *)
Theorem use_media_keeps_bindings (path : string) (m : gmap string string) :
  (forall k v, m !! k = Some v -> snd (use_media path m) !! k = Some v)
  /\ (is_ok (fst (use_media path m)) = false ->
      use_media path m = (Raise AssertionError, m)).
Proof.
  unfold use_media.
  destruct (m !! PyStr.replace "/" "_" path) as [old|] eqn:E.
  - destruct (decide (old = path)); cbn; split; try done.
  - cbn. split; [|done]. intros k v Hk.
    rewrite lookup_insert_ne; [done|]. intros <-. congruence.
Qed.

Lemma format_word_field_empty (fmt : NoteFormatter) (e : DictionaryEntry) :
  format_word_field fmt e ∅ =
  match format_pronounciation fmt e with
  | Raise err => (Raise err, ∅)
  | Ok p =>
      let w := PyStr.html_escape (entry e) ++ "[" ++ p ++ "]" in
      match sound_url e with
      | None => (Ok w, ∅)
      | Some url =>
          (Ok (w ++ " [sound:" ++ PyStr.replace "/" "_" url ++ "]"),
           {[PyStr.replace "/" "_" url := url]})
      end
  end.
Proof.
  unfold format_word_field, mbind, lift, mret.
  destruct (format_pronounciation fmt e) as [p|]; [|done].
  destruct (sound_url e) as [url|]; [|done].
  unfold use_media. rewrite lookup_empty. cbn. by rewrite insert_empty.
Qed.

(** The word field and the media of the note of an entry whose
    pronunciation text is [p]. *)
Lemma entry_to_note_steps (fmt : NoteFormatter) (r : EntryRef) (m : gmap string string) :
  entry_to_note fmt r m =
  match _ref_to_entry fmt r with
  | Raise err => (Raise err, m)
  | Ok (real_ref, e) =>
      match format_pronounciation fmt e with
      | Raise err => (Raise err, ∅)
      | Ok p =>
          let w := PyStr.html_escape (entry e) ++ "[" ++ p ++ "]" in
          let word_str :=
            match sound_url e with
            | None => w
            | Some url => w ++ " [sound:" ++ PyStr.replace "/" "_" url ++ "]"
            end in
          let registered : gmap string string :=
            match sound_url e with
            | None => ∅
            | Some url => {[PyStr.replace "/" "_" url := url]}
            end in
          match format_definition_field e with
          | Raise err => (Raise err, registered)
          | Ok definition_str =>
              match format_extra_field fmt e with
              | Raise err => (Raise err, registered)
              | Ok extra_str =>
                  (Ok {| note_ref := real_ref; word := word_str;
                         note_definition := definition_str;
                         extra := extra_str; media := registered |}, ∅)
              end
          end
      end
  end.
Proof.
  rewrite entry_to_note_unfold.
  destruct (_ref_to_entry fmt r) as [[real_ref e]|]; [|done].
  rewrite format_word_field_empty.
  destruct (format_pronounciation fmt e) as [p|]; [|done].
  by destruct (sound_url e) as [url|].
Qed.

(** X5. [entry_to_note] and the audio of the entry.  Whenever the reference
    resolves and the pronunciation, the definition field and the extra field
    of the resolved entry can be built, [entry_to_note] returns a note, also
    for an entry with an audio locator: registering the audio never fails,
    because the map was just emptied.  The note carries exactly the audio of
    the entry: an empty media map when there is no audio locator, otherwise
    the single binding of the sanitized name to the locator, with the word
    field ending in the matching sound marker; the map is empty afterwards.
    An exception of [entry_to_note] is therefore always the exception of the
    resolver, of the pronunciation, of the definition field or of the extra
    field, never the name collision of the registry itself. *)
Theorem entry_to_note_media (fmt : NoteFormatter) (r : EntryRef)
    (m : gmap string string) :
  (forall real_ref e p definition_str extra_str,
      _ref_to_entry fmt r = Ok (real_ref, e) ->
      format_pronounciation fmt e = Ok p ->
      format_definition_field e = Ok definition_str ->
      format_extra_field fmt e = Ok extra_str ->
      entry_to_note fmt r m =
      (Ok {| note_ref := real_ref;
             word := match sound_url e with
                     | None => PyStr.html_escape (entry e) ++ "[" ++ p ++ "]"
                     | Some url =>
                         (PyStr.html_escape (entry e) ++ "[" ++ p ++ "]")
                         ++ " [sound:" ++ PyStr.replace "/" "_" url ++ "]"
                     end;
             note_definition := definition_str;
             extra := extra_str;
             media := match sound_url e with
                      | None => ∅
                      | Some url => {[PyStr.replace "/" "_" url := url]}
                      end |}, ∅))
  /\ (forall note m',
        entry_to_note fmt r m = (Ok note, m') ->
        exists e p,
          _ref_to_entry fmt r = Ok (note_ref note, e)
          /\ format_pronounciation fmt e = Ok p
          /\ match sound_url e with
             | None =>
                 media note = ∅
                 /\ word note = PyStr.html_escape (entry e) ++ "[" ++ p ++ "]"
             | Some url =>
                 media note = {[PyStr.replace "/" "_" url := url]}
                 /\ word note = (PyStr.html_escape (entry e) ++ "[" ++ p ++ "]")
                                ++ " [sound:" ++ PyStr.replace "/" "_" url ++ "]"
             end)
  /\ (forall err,
        fst (entry_to_note fmt r m) = Raise err ->
        _ref_to_entry fmt r = Raise err
        \/ exists real_ref e,
             _ref_to_entry fmt r = Ok (real_ref, e)
             /\ (format_pronounciation fmt e = Raise err
                 \/ format_definition_field e = Raise err
                 \/ format_extra_field fmt e = Raise err)).
Proof.
  rewrite entry_to_note_steps. split; [|split].
  - intros real_ref e p d x Hr Hp Hd Hx. rewrite Hr, Hp. cbn zeta. rewrite Hd, Hx.
    by destruct (sound_url e).
  - intros note m'.
    destruct (_ref_to_entry fmt r) as [[real_ref e]|]; [|discriminate].
    destruct (format_pronounciation fmt e) as [p|] eqn:Ep; [|discriminate]. cbn zeta.
    destruct (format_definition_field e); [|discriminate].
    destruct (format_extra_field fmt e); [|discriminate].
    intros [= <- <-]. exists e, p. cbn [note_ref media word].
    split; [done|]. split; [done|]. by destruct (sound_url e).
  - intros err.
    destruct (_ref_to_entry fmt r) as [[real_ref e]|err0]; [|intros [= ->]; by left].
    intros H. right. exists real_ref, e. split; [done|]. revert H.
    destruct (format_pronounciation fmt e) as [p|err1]; [|intros [= ->]; by left].
    cbn zeta.
    destruct (format_definition_field e) as [d|err2]; [|intros [= ->]; right; by left].
    destruct (format_extra_field fmt e) as [x|err3]; [discriminate|].
    intros [= ->]. right. by right.
Qed.

Lemma entry_to_note_media_witness :
  entry_to_note (Examples.fmt_of [MoreExamples.spoken]) (mkEntryRef 5 None)
                {["mp3_E5.mp3" := "elsewhere/E5.mp3"]}
  = (Ok {| note_ref := mkEntryRef 5 None;
           word := "ma&lt;a[maa-dii] [sound:mp3_E5.mp3]";
           note_definition := "to come"; extra := "";
           media := {["mp3_E5.mp3" := "mp3/E5.mp3"]} |}, ∅).
Proof.
  destruct (entry_to_note_media (Examples.fmt_of [MoreExamples.spoken])
              (mkEntryRef 5 None) {["mp3_E5.mp3" := "elsewhere/E5.mp3"]}) as [H _].
  rewrite (H (mkEntryRef 5 None) MoreExamples.spoken "maa-dii" "to come" ""
             eq_refl eq_refl eq_refl eq_refl).
  reflexivity.
Defined.

(** X6. What [entry_to_note] leaves in the media map.  When the reference
    cannot be resolved the map is left untouched (it is cleared only after
    the resolution).  Otherwise it is empty after a successful build, and
    after a failed one it is empty or holds just the audio registration of
    the resolved entry. *)
Theorem entry_to_note_media_after (fmt : NoteFormatter) (r : EntryRef)
    (m : gmap string string) :
  match _ref_to_entry fmt r with
  | Raise err => entry_to_note fmt r m = (Raise err, m)
  | Ok (_, e) =>
      (is_ok (fst (entry_to_note fmt r m)) = true -> snd (entry_to_note fmt r m) = ∅)
      /\ (snd (entry_to_note fmt r m) = ∅
          \/ exists url, sound_url e = Some url
                         /\ snd (entry_to_note fmt r m)
                            = {[PyStr.replace "/" "_" url := url]})
  end.
Proof.
  rewrite entry_to_note_unfold.
  destruct (_ref_to_entry fmt r) as [[real_ref e]|]; [|done].
  rewrite format_word_field_empty.
  destruct (format_pronounciation fmt e) as [p|]; [|split; [done | by left]].
  destruct (sound_url e) as [url|]; cbn zeta;
    destruct (format_definition_field e); cbn;
    try destruct (format_extra_field fmt e); cbn;
    (split; [done|]); try (by left); right; by exists url.
Qed.

(** ** Definition field *)

Lemma assoc_In_wf {K V} `{EqDecision K} (k : K) (v : V) (d : list (K * V)) :
  dict_wf d -> In (k, v) d -> assoc k d = Some v.
Proof.
  unfold dict_wf. induction d as [|[k' v'] d IH]; [done|].
  cbn [fmap list_fmap assoc fst]. intros Hnd Hin. apply NoDup_cons in Hnd as [Hk Hnd].
  destruct Hin as [[= -> ->]|Hin]; [by rewrite decide_True|].
  rewrite decide_False; [by apply IH|].
  intros ->. apply Hk. apply list_elem_of_In, in_map_iff. by exists (k, v).
Qed.

Lemma map_result_keys {K V B} (f : K -> result B) (g : K * V -> B) (l : list (K * V)) :
  (forall kv, In kv l -> f (fst kv) = Ok (g kv)) ->
  map_result f (map fst l) = Ok (map g l).
Proof.
  induction l as [|a l IH]; intros H; [done|]. cbn [map_result map].
  rewrite (H a (or_introl eq_refl)). cbn [rbind].
  rewrite IH by (intros; apply H; by right). reflexivity.
Qed.

Lemma format_definition_field_wf (e : DictionaryEntry) :
  dict_wf (definitions e) ->
  format_definition_field e =
  match filter (fun kv => spec_suitable (snd kv)) (definitions e) with
  | [] => Raise (RuntimeError "No suitable definitions found")
  | ds => Ok (PyStr.join "<br>" (map (fun kv => PyStr.html_escape (definition (snd kv))) ds))
  end.
Proof.
  intros Hwf. unfold format_definition_field, suitable_definitions.
  rewrite suitable_filter_eq.
  set (ds := filter (fun kv => spec_suitable (snd kv)) (definitions e)).
  assert (Hds : forall kv, In kv ds -> In kv (definitions e)).
  { intros kv Hin. apply list_elem_of_In, list_elem_of_filter in Hin as [_ Hin].
    by apply list_elem_of_In. }
  assert (Hmap : map_result (fun i => format_definition e (Some i)) (map fst ds)
                 = Ok (map (fun kv => PyStr.html_escape (definition (snd kv))) ds)).
  { apply map_result_keys. intros [k v] Hin.
    unfold format_definition, getitem. cbn [default fst snd].
    by rewrite (assoc_In_wf k v _ Hwf (Hds _ Hin)). }
  destruct ds as [|kv ds']; [done|].
  cbn [map] in *. cbn [rbind]. rewrite Hmap. reflexivity.
Qed.

(** X7. On an entry whose definition ids are distinct, the definition field
    is the HTML-escaped texts of the suitable definitions (not merged, not
    tagged "The English Alphabet"), in stored order, joined by "<br>"; it
    raises only when there is no suitable definition, never a KeyError. *)
Theorem format_definition_field_exact (e : DictionaryEntry) :
  dict_wf (definitions e) ->
  format_definition_field e =
  match filter (fun kv => spec_suitable (snd kv)) (definitions e) with
  | [] => Raise (RuntimeError "No suitable definitions found")
  | ds => Ok (PyStr.join "<br>" (map (fun kv => PyStr.html_escape (definition (snd kv))) ds))
  end.
Proof. apply format_definition_field_wf. Qed.

Lemma format_definition_field_exact_witness :
  format_definition_field Examples.empty_then_full = Ok "first<br>second".
Proof.
  rewrite (format_definition_field_exact Examples.empty_then_full).
  - reflexivity.
  - unfold dict_wf. apply (bool_decide_unpack _). reflexivity.
Defined.

(** ** Entity resolver *)

(** X8. Resolving is idempotent: when the fetcher returns under an id an
    entry that it also returns under the entry's own id, resolving the
    canonical reference that [_ref_to_entry] returned gives the same
    reference and the same entry again.  (The canonical reference carries
    the entry's own id, which differs from the requested id when the entry
    was fetched under an alias.) *)
Theorem ref_to_entry_idempotent (fmt : NoteFormatter) (r r' : EntryRef)
    (e' : DictionaryEntry) :
  _ref_to_entry fmt r = Ok (r', e') ->
  (forall e, get_entry (_fetcher fmt) (ref_id r) = Ok e ->
             get_entry (_fetcher fmt) (entry_id e) = Ok e) ->
  _ref_to_entry fmt r' = Ok (r', e').
Proof.
  unfold _ref_to_entry. intros H Hfetch.
  destruct (get_entry (_fetcher fmt) (ref_id r)) as [e|] eqn:E; [|discriminate].
  specialize (Hfetch e eq_refl). cbn [rbind] in H.
  assert (Hid : ref_id r' = entry_id e /\ ref_definition r' = ref_definition r).
  { destruct (ref_definition r) as [d|]; [|by injection H as <- _].
    destruct (assoc d (definitions e)) as [defn|]; [|discriminate].
    destruct (super_entry defn); [|by injection H as <- _].
    destruct (get_super_entry (_fetcher fmt) e d); [|discriminate].
    by injection H as <- _. }
  destruct Hid as [Hid Hdef]. rewrite Hid, Hfetch, Hdef. cbn [rbind]. exact H.
Qed.

Lemma ref_to_entry_idempotent_witness :
  _ref_to_entry (new_formatter MoreExamples.alias_fetcher None) (mkEntryRef 1 (Some 0))
  = Ok (mkEntryRef 5 (Some 0), MoreExamples.spoken)
  /\ _ref_to_entry (new_formatter MoreExamples.alias_fetcher None) (mkEntryRef 5 (Some 0))
     = Ok (mkEntryRef 5 (Some 0), MoreExamples.spoken).
Proof.
  assert (H : _ref_to_entry (new_formatter MoreExamples.alias_fetcher None)
                (mkEntryRef 1 (Some 0))
              = Ok (mkEntryRef 5 (Some 0), MoreExamples.spoken)) by reflexivity.
  split; [exact H|].
  apply (ref_to_entry_idempotent (new_formatter MoreExamples.alias_fetcher None)
           (mkEntryRef 1 (Some 0)) (mkEntryRef 5 (Some 0)) MoreExamples.spoken H).
  intros e He. cbn in He. injection He as <-. reflexivity.
Defined.

(** X9. The resolver outside the narrowing case.  An entry the fetcher does
    not have raises EntryNotFound; a reference without definition id gives
    the fetched entry unchanged under the reference (entry id, no
    definition); a reference to a merged definition gives the fetcher's
    merged view of that definition (or the exception the fetcher raises),
    not a narrowed entry. *)
Theorem ref_to_entry_other_cases (fmt : NoteFormatter) (r : EntryRef) :
  (dictionary (_fetcher fmt) !! ref_id r = None ->
   _ref_to_entry fmt r = Raise EntryNotFound)
  /\ (forall e, get_entry (_fetcher fmt) (ref_id r) = Ok e ->
        ref_definition r = None ->
        _ref_to_entry fmt r = Ok (mkEntryRef (entry_id e) None, e))
  /\ (forall e d defn s,
        get_entry (_fetcher fmt) (ref_id r) = Ok e ->
        ref_definition r = Some d ->
        assoc d (definitions e) = Some defn ->
        super_entry defn = Some s ->
        _ref_to_entry fmt r =
        match get_super_entry (_fetcher fmt) e d with
        | Ok merged => Ok (mkEntryRef (entry_id e) (Some d), merged)
        | Raise err => Raise err
        end).
Proof.
  unfold _ref_to_entry. split; [|split].
  - intros H. unfold get_entry. by rewrite H.
  - intros e He Hd. by rewrite He, Hd.
  - intros e d defn s He Hd Hdefn Hs. rewrite He, Hd. cbn [rbind].
    rewrite Hdefn, Hs. by destruct (get_super_entry (_fetcher fmt) e d).
Qed.

(** X9 on an example: definition 1 of entry 6 is merged, and resolving it
    returns the merged view. *)
Example ref_to_entry_merged_example :
  _ref_to_entry (new_formatter MoreExamples.fetcher_with_super None) (mkEntryRef 6 (Some 1))
  = Ok (mkEntryRef 6 (Some 1), MoreExamples.merged_view).
Proof. reflexivity. Qed.

(** X10. A word note built for a reference to one plain definition shows
    that definition only: its definition field is the HTML-escaped text of
    the referenced definition, whatever other definitions the entry has. *)
Theorem entry_to_note_single_definition (fmt : NoteFormatter) (r : EntryRef)
    (d : DefinitionId) (e : DictionaryEntry) (defn : EntryDefinition)
    (m m' : gmap string string) (note : WordNote) :
  get_entry (_fetcher fmt) (ref_id r) = Ok e ->
  ref_definition r = Some d ->
  dict_wf (definitions e) ->
  assoc d (definitions e) = Some defn ->
  super_entry defn = None ->
  entry_to_note fmt r m = (Ok note, m') ->
  note_definition note = PyStr.html_escape (definition defn)
  /\ note_ref note = mkEntryRef (entry_id e) (Some d).
Proof.
  intros He Hd Hwf Hdefn Hs. rewrite entry_to_note_unfold.
  unfold _ref_to_entry. rewrite He, Hd. cbn [rbind]. rewrite Hdefn, Hs.
  rewrite (filter_key_unique d (definitions e) defn Hwf Hdefn).
  destruct (format_word_field fmt _ ∅) as [[w|] m1]; [|discriminate].
  rewrite format_definition_field_wf
    by (unfold dict_wf; cbn; apply NoDup_singleton).
  cbn [definitions]. rewrite filter_cons, filter_nil. cbn [snd].
  destruct (decide (spec_suitable defn)); [|discriminate].
  cbn [map PyStr.join snd].
  destruct (format_extra_field fmt _); [|discriminate].
  intros [= <- <-]. by split.
Qed.

Lemma entry_to_note_single_definition_witness :
  PyStr.html_escape (definition (Examples.plain "second" (Some [CRef (mkEntryRef 1 None)])))
  = "second".
Proof.
  pose (fmt := Examples.fmt_of [Examples.naam; Examples.empty_then_full]).
  assert (Hwf : dict_wf (definitions Examples.empty_then_full)).
  { unfold dict_wf. apply (bool_decide_unpack _). reflexivity. }
  assert (Hnote : entry_to_note fmt (mkEntryRef 2 (Some 1)) ∅
                  = (Ok {| note_ref := mkEntryRef 2 (Some 1);
                           word := "ab[ab]";
                           note_definition := "second";
                           extra := "<ruby>น้ำ<rt>náam</rt></ruby>: water";
                           media := ∅ |}, ∅)) by reflexivity.
  destruct (entry_to_note_single_definition fmt (mkEntryRef 2 (Some 1)) 1
              Examples.empty_then_full
              (Examples.plain "second" (Some [CRef (mkEntryRef 1 None)]))
              ∅ ∅ _ eq_refl eq_refl Hwf eq_refl eq_refl Hnote) as [H _].
  symmetry. exact H.
Defined.

(** ** Joining and the extra field *)

Lemma join_cons_nonempty sep (s : string) (rest : list string) :
  s <> "" -> PyStr.join sep (s :: rest) <> "".
Proof.
  intros Hs. destruct s as [|c s]; [done|].
  destruct rest; cbn [PyStr.join]; [done|]. by rewrite app_String.
Qed.

(** X11. [join_nonempty_strings] is empty exactly when every string it is
    given is empty, and an empty string leaves no separator behind: of two
    strings, an empty one is dropped and the other returned as it is. *)
Theorem join_nonempty_strings_drops_empty (strs : list string) (sep a b : string) :
  (join_nonempty_strings strs sep = "" <-> Forall (fun s => s = "") strs)
  /\ join_nonempty_strings [a; b] sep
     = (if decide (a = "") then b
        else if decide (b = "") then a
        else a ++ sep ++ b).
Proof.
  unfold join_nonempty_strings. split.
  - induction strs as [|s strs IH]; [by split|].
    rewrite filter_cons. destruct (decide (s <> "")) as [Hs|Hs].
    + split.
      * intros H. by apply join_cons_nonempty in H.
      * intros H. apply Forall_cons in H as [-> _]. done.
    + assert (s = "") as -> by (by destruct (decide (s = ""))).
      rewrite IH. split; [by constructor | by intros [_ H]%Forall_cons].
  - rewrite !filter_cons, filter_nil.
    destruct (decide (a = "")) as [->|Ha], (decide (b = "")) as [->|Hb].
    + by rewrite !decide_False by (by intros []).
    + rewrite decide_False by (by intros []). by rewrite decide_True.
    + rewrite decide_True by done. by rewrite decide_False by (by intros []).
    + by rewrite !decide_True.
Qed.

(** X12. For an entry none of whose definitions has a classifier, the extra
    field is just the component lines: the formatted components of the
    traversal joined by "<br>".  With no definition to expand either, it is
    the empty string. *)
Theorem format_extra_field_no_classifier (fmt : NoteFormatter) (e : DictionaryEntry) :
  first_classifier e = None ->
  format_extra_field fmt e =
    (comps <-? gen_list (build_components fmt e None);
     strs <-? map_result (format_component fmt) comps;
     Ok (PyStr.join "<br>" strs))%result
  /\ (components_definition e = None -> format_extra_field fmt e = Ok "").
Proof.
  intros Hc.
  assert (H : format_extra_field fmt e =
    (comps <-? gen_list (build_components fmt e None);
     strs <-? map_result (format_component fmt) comps;
     Ok (PyStr.join "<br>" strs))%result).
  { unfold format_extra_field. rewrite Hc.
    destruct (gen_list _) as [comps|]; [|done]. cbn [rbind].
    destruct (map_result _ comps) as [strs|]; [|done]. cbn [rbind].
    f_equal. unfold join_nonempty_strings. rewrite filter_cons.
    rewrite decide_False by (by intros []).
    rewrite filter_cons, filter_nil.
    destruct (decide (PyStr.join "<br>" strs <> "")) as [|Hn]; [done|].
    by destruct (decide (PyStr.join "<br>" strs = "")) as [->|]. }
  split; [exact H|]. intros Hn. rewrite H.
  unfold build_components, traversal_fuel. cbn [_build_components]. by rewrite Hn.
Qed.

Lemma format_extra_field_no_classifier_witness :
  format_extra_field (Examples.fmt_of [Examples.naam; Examples.empty_then_full])
                     (Examples.simple_entry 2 "ab" "ab"
                        [(1, Examples.plain "second" (Some [CRef (mkEntryRef 1 None)]))])
  = Ok "<ruby>น้ำ<rt>náam</rt></ruby>: water".
Proof.
  destruct (format_extra_field_no_classifier
              (Examples.fmt_of [Examples.naam; Examples.empty_then_full])
              (Examples.simple_entry 2 "ab" "ab"
                 [(1, Examples.plain "second" (Some [CRef (mkEntryRef 1 None)]))])
              eq_refl) as [H _].
  rewrite H. reflexivity.
Defined.

(** ** Component graph builder: levels, origin and number of components *)

Lemma gen_then_emitted g k :
  emitted (gen_then g k) = emitted g
  \/ (outcome g = Finished
      /\ emitted (gen_then g k) = (emitted g ++ emitted (k (visited_after g)))%list).
Proof. unfold gen_then. destruct (outcome g); [right|left..]; done. Qed.

Lemma gen_for_Forall {A} (R : WordComponent -> Prop)
    (step : A -> gset EntryRef -> Gen) (xs : list A) :
  (forall x v, Forall R (emitted (step x v))) ->
  forall v, Forall R (emitted (gen_for step xs v)).
Proof.
  intros Hstep. induction xs as [|x xs IH]; intros v; cbn [gen_for]; [constructor|].
  destruct (gen_then_emitted (step x v) (gen_for step xs)) as [-> | [_ ->]]; [done|].
  apply Forall_app. by split.
Qed.

Lemma component_with_Forall (R : WordComponent -> Prop) expand f r component v level emit :
  (forall e v', Forall R (emitted (expand e v' (S level)))) ->
  (forall comp_entry,
      resolve_component f component
        (default (first_definition component) (ref_definition r)) = Ok comp_entry ->
      R {| wc_id := entry_id component;
           wc_definition := default (first_definition component) (ref_definition r);
           wc_entry := comp_entry; wc_level := level |}) ->
  Forall R (emitted (_build_component_with expand f r component v level emit)).
Proof.
  intros Hex Hwc. unfold _build_component_with. unfold resolve_component in Hwc.
  destruct (decide (_ ∈ v)); [constructor|].
  destruct (getitem _ _) as [d|]; [|constructor]. cbn [rbind] in Hwc.
  destruct (match super_entry d with Some _ => _ | None => _ end) as [ce|]; [|constructor].
  specialize (Hwc ce eq_refl).
  destruct emit; [|by repeat constructor].
  unfold gen_then. cbn. constructor; [done | apply Hex].
Qed.

Lemma build_components_Forall (R : nat -> WordComponent -> Prop) f :
  (forall i component d comp_entry level,
      dictionary f !! i = Some component ->
      resolve_component f component d = Ok comp_entry ->
      R level {| wc_id := entry_id component; wc_definition := d;
                 wc_entry := comp_entry; wc_level := level |}) ->
  (forall level c, R (S level) c -> R level c) ->
  forall fuel e v level,
    Forall (R level) (emitted (_build_components fuel f e v level)).
Proof.
  intros HR Hmono. induction fuel as [|fuel IH]; intros e v level;
    cbn [_build_components]; [constructor|].
  destruct (components_definition e) as [cd|]; [|constructor].
  apply gen_for_Forall. intros rel v'. unfold component_step, get_entry.
  destruct (dictionary f !! _) as [component|] eqn:Ei; [|constructor].
  apply component_with_Forall.
  - intros e' v''. eapply Forall_impl; [apply IH|]. apply Hmono.
  - intros ce Hce. by apply (HR _ _ _ _ _ Ei).
Qed.

Lemma resolve_component_assoc f component d ce :
  resolve_component f component d = Ok ce ->
  exists defn, assoc d (definitions component) = Some defn.
Proof.
  unfold resolve_component, getitem.
  destruct (assoc d (definitions component)) as [defn|]; [by exists defn | discriminate].
Qed.

Lemma build_components_from_dictionary (f : DictionaryFetcher) (fuel : nat)
    (e : DictionaryEntry) (v : gset EntryRef) (level : nat) :
  Forall (fun c => from_dictionary f c /\ (level <= wc_level c)%nat
                   /\ wc_ref c ∈ universe f)
         (emitted (_build_components fuel f e v level)).
Proof.
  apply (build_components_Forall
           (fun l c => from_dictionary f c /\ (l <= wc_level c)%nat
                       /\ wc_ref c ∈ universe f)).
  - intros i component d ce l Hi Hres. split; [|split].
    + by exists i, component.
    + cbn. lia.
    + destruct (resolve_component_assoc _ _ _ _ Hres) as [defn Hd].
      apply (entry_ref_in_universe f i component d defn Hi Hd).
  - intros l c (H1 & H2 & H3). split; [done|]. split; [lia | done].
Qed.

(** X13. Every component the traversal of an entry yields stands for an
    entry of the dictionary: it carries that entry's id, a definition id
    that exists on it, and as its entry what the entry resolves to under
    that definition (the entry itself for a plain definition, the fetcher's
    merged view for a merged one); and its level is never above the level
    the traversal started at. *)
Theorem yielded_components_from_dictionary (f : DictionaryFetcher) (fuel : nat)
    (e : DictionaryEntry) (v : gset EntryRef) (level : nat) :
  Forall (fun c => from_dictionary f c /\ (level <= wc_level c)%nat
                   /\ wc_ref c ∈ universe f)
         (emitted (_build_components fuel f e v level)).
Proof. apply build_components_from_dictionary. Qed.

(** X14. A traversal yields at most as many components as the dictionary
    has (entry, definition) pairs that are not visited yet; from an empty
    visited set, at most as many as the dictionary has pairs. *)
Theorem yielded_components_bounded (fmt : NoteFormatter) (fuel : nat)
    (e : DictionaryEntry) (v : gset EntryRef) (level : nat) :
  (length (emitted (_build_components fuel (_fetcher fmt) e v level))
   <= unvisited (_fetcher fmt) v)%nat
  /\ (length (emitted (build_components fmt e None))
      <= size (universe (_fetcher fmt)))%nat.
Proof.
  assert (H : forall fuel' e' v' level',
             (length (emitted (_build_components fuel' (_fetcher fmt) e' v' level'))
              <= unvisited (_fetcher fmt) v')%nat).
  { intros fuel' e' v' level'.
    set (g := _build_components fuel' (_fetcher fmt) e' v' level').
    destruct (gen_ok_build_components fuel' (_fetcher fmt) e' v' level')
      as (_ & Hnd & Hfresh). fold g in Hnd, Hfresh.
    pose proof (build_components_from_dictionary (_fetcher fmt) fuel' e' v' level')
      as Hall. fold g in Hall.
    assert (Hlen : length (emitted g) = size (list_to_set (yielded_refs g) : gset EntryRef)).
    { rewrite size_list_to_set by exact Hnd. unfold yielded_refs. by rewrite length_map. }
    rewrite Hlen. apply subseteq_size. intros p Hp.
    apply elem_of_list_to_set in Hp. apply elem_of_difference. split; [|by apply Hfresh].
    unfold yielded_refs in Hp. apply list_elem_of_In, in_map_iff in Hp as (c & <- & Hc).
    rewrite Forall_forall in Hall. apply list_elem_of_In in Hc.
    by destruct (Hall c Hc) as (_ & _ & Hu). }
  split; [apply H|].
  unfold build_components. etransitivity; [apply H | apply unvisited_le_universe].
Qed.

(** ** Levels form an outline *)

Lemma outline_from_weaken p lo levels :
  outline_from p (S lo) levels -> outline_from p lo levels.
Proof.
  revert p. induction levels as [|l levels IH]; intros p; [done|].
  cbn. intros (H1 & H2 & H3). split; [lia|]. split; [lia|]. by apply IH.
Qed.

Lemma outline_from_app p lo (r1 r2 : list nat) :
  (lo <= p)%nat -> outline_from p lo r1 -> outline_from lo lo r2 ->
  outline_from p lo (r1 ++ lo :: r2).
Proof.
  revert p. induction r1 as [|x r1 IH]; intros p Hp H1 H2.
  - cbn. split; [lia|]. split; [lia|]. done.
  - cbn in H1 |- *. destruct H1 as (Ha & Hb & Hc).
    split; [done|]. split; [done|]. by apply IH.
Qed.

Lemma outline_app lo (l1 l2 : list nat) :
  outline lo l1 -> outline lo l2 -> outline lo (l1 ++ l2).
Proof.
  destruct l1 as [|x r1]; [done|]. intros [-> H1] H2.
  destruct l2 as [|y r2]; [by rewrite app_nil_r|].
  destruct H2 as [-> H2]. cbn. split; [done|]. by apply outline_from_app.
Qed.

Lemma outline_cons lo (sub : list nat) :
  outline (S lo) sub -> outline lo (lo :: sub).
Proof.
  intros H. cbn. split; [done|]. destruct sub as [|x r]; [done|].
  destruct H as [-> H]. cbn. split; [lia|]. split; [lia|].
  by apply outline_from_weaken.
Qed.

Lemma outline_then lo g k :
  outline lo (map wc_level (emitted g)) ->
  (forall v, outline lo (map wc_level (emitted (k v)))) ->
  outline lo (map wc_level (emitted (gen_then g k))).
Proof.
  intros Hg Hk. destruct (gen_then_emitted g k) as [-> | [_ ->]]; [done|].
  rewrite map_app. by apply outline_app.
Qed.

Lemma outline_for {A} lo (step : A -> gset EntryRef -> Gen) (xs : list A) :
  (forall x v, outline lo (map wc_level (emitted (step x v)))) ->
  forall v, outline lo (map wc_level (emitted (gen_for step xs v))).
Proof.
  intros Hstep. induction xs as [|x xs IH]; intros v; cbn [gen_for]; [done|].
  by apply outline_then.
Qed.

Lemma outline_component_with expand f r component v level emit :
  (forall e v', outline (S level) (map wc_level (emitted (expand e v' (S level))))) ->
  outline level
    (map wc_level (emitted (_build_component_with expand f r component v level emit))).
Proof.
  intros Hex. unfold _build_component_with.
  destruct (decide (_ ∈ v)); [done|].
  destruct (getitem _ _) as [d|]; [|done].
  destruct (match super_entry d with Some _ => _ | None => _ end) as [ce|]; [|done].
  destruct emit; [|done].
  unfold gen_then. cbn. apply (outline_cons level), Hex.
Qed.

Lemma outline_build_components fuel f :
  forall e v level,
    outline level (map wc_level (emitted (_build_components fuel f e v level))).
Proof.
  induction fuel as [|fuel IH]; intros e v level; cbn [_build_components]; [done|].
  destruct (components_definition e) as [cd|]; [|done].
  apply outline_for. intros rel v'. unfold component_step.
  destruct (get_entry f _) as [component|]; [|done].
  apply outline_component_with. intros. apply IH.
Qed.

(** X15. The levels of the components, in the order they are yielded, form
    an outline: the first component is at the starting level (0 for
    [build_components], [build_component] and a cloze note), no component
    is above the starting level, and a component is at most one level
    deeper than the one before it. *)
Theorem yielded_levels_outline (fmt : NoteFormatter) (visited : option (gset EntryRef)) :
  (forall fuel e v level,
      outline level
        (map wc_level (emitted (_build_components fuel (_fetcher fmt) e v level))))
  /\ (forall e, outline 0 (map wc_level (emitted (build_components fmt e visited))))
  /\ (forall r e, outline 0 (map wc_level (emitted (build_component fmt r e visited))))
  /\ (forall entries v,
        outline 0 (map wc_level (emitted (cloze_components fmt entries v)))).
Proof.
  assert (Hc : forall r e w,
             outline 0 (map wc_level (emitted (build_component fmt r e w)))).
  { intros. apply outline_component_with. intros. apply outline_build_components. }
  split; [intros; apply outline_build_components|].
  split; [intros; apply outline_build_components|].
  split; [intros; apply Hc|].
  intros entries v. apply outline_for. intros [r e] w. apply Hc.
Qed.

(** X15 on the cyclic dictionary: the levels are 0 then 1. *)
Example yielded_levels_cycle :
  map wc_level (emitted (build_components
                           (Examples.fmt_of [Examples.cyc_a; Examples.cyc_b])
                           Examples.cyc_a None)) = [0; 1]%nat.
Proof. reflexivity. Qed.

(** ** Repeated entries in a cloze note *)

Lemma gen_then_assoc g k1 k2 :
  gen_then (gen_then g k1) k2 = gen_then g (fun v => gen_then (k1 v) k2).
Proof.
  unfold gen_then. destruct (outcome g) eqn:E; cbn [outcome].
  - destruct (outcome (k1 (visited_after g))) eqn:E1; cbn; rewrite ?E1; [|done..].
    by rewrite app_assoc.
  - by rewrite E.
  - by rewrite E.
Qed.

Lemma gen_then_ext g k1 k2 :
  (forall v, k1 v = k2 v) -> gen_then g k1 = gen_then g k2.
Proof. intros H. unfold gen_then. by rewrite H. Qed.

Lemma gen_for_app {A} (step : A -> gset EntryRef -> Gen) (xs ys : list A) v :
  gen_for step (xs ++ ys) v = gen_then (gen_for step xs v) (gen_for step ys).
Proof.
  revert v. induction xs as [|x xs IH]; intros v.
  - cbn. unfold gen_then. cbn. by destruct (gen_for step ys v).
  - cbn [app gen_for]. rewrite gen_then_assoc. by apply gen_then_ext.
Qed.

Lemma build_component_records (fmt : NoteFormatter) r e w :
  outcome (build_component fmt r e (Some w)) = Finished ->
  top_ref r e ∈ visited_after (build_component fmt r e (Some w)).
Proof.
  unfold build_component. change (default (∅ : gset EntryRef) (Some w)) with w.
  unfold _build_component, _build_component_with, top_ref.
  set (p := mkEntryRef (entry_id e) (Some (default (first_definition e) (ref_definition r)))).
  destruct (decide (p ∈ w)) as [Hin|Hnin]; [intros _; exact Hin|].
  destruct (getitem _ _) as [d|]; [|discriminate].
  destruct (match super_entry d with Some _ => _ | None => _ end) as [ce|]; [|discriminate].
  intros _. unfold gen_then. cbn [outcome visited_after].
  apply (gen_ok_grows _ _ (gen_ok_build_components _ _ _ _ _)). set_solver.
Qed.

Lemma cloze_components_records (fmt : NoteFormatter) entries r e :
  In (r, e) entries ->
  forall v, outcome (cloze_components fmt entries v) = Finished ->
            top_ref r e ∈ visited_after (cloze_components fmt entries v).
Proof.
  unfold cloze_components.
  induction entries as [|[r0 e0] entries IH]; intros Hin v; [destruct Hin|].
  cbn [gen_for]. unfold gen_then.
  destruct (outcome (build_component fmt r0 e0 (Some v))) eqn:E; [|by rewrite E..].
  cbn [outcome visited_after]. intros Hfin.
  destruct Hin as [[= -> ->]|Hin]; [|by apply IH].
  assert (Hok : forall w, gen_ok w (gen_for
             (fun '(r1, e1) (visited : gset EntryRef) =>
                build_component fmt r1 e1 (Some visited)) entries w)).
  { apply gen_ok_for. intros [r1 e1] w'. apply gen_ok_component_with.
    intros. apply gen_ok_build_components. }
  apply (gen_ok_grows _ _ (Hok _)). by apply build_component_records.
Qed.

(** X16. Mentioning an entry a second time in a cloze sentence adds nothing
    to the components: when the traversal for a list of resolved references
    finishes, appending a reference already in the list leaves the yielded
    components, the visited set and the outcome unchanged. *)
Theorem cloze_components_repeat (fmt : NoteFormatter)
    (entries : list (EntryRef * DictionaryEntry)) (r : EntryRef)
    (e : DictionaryEntry) (v : gset EntryRef) :
  In (r, e) entries ->
  outcome (cloze_components fmt entries v) = Finished ->
  cloze_components fmt (entries ++ [(r, e)]) v = cloze_components fmt entries v.
Proof.
  intros Hin Hfin.
  pose proof (cloze_components_records fmt entries r e Hin v Hfin) as Hrec.
  unfold cloze_components in *. rewrite gen_for_app. unfold gen_then. rewrite Hfin.
  cbn [gen_for]. unfold gen_then.
  assert (Hskip : build_component fmt r e
                    (Some (visited_after (gen_for
                       (fun '(r1, e1) (visited : gset EntryRef) =>
                          build_component fmt r1 e1 (Some visited)) entries v)))
                  = {| emitted := [];
                       visited_after := visited_after (gen_for
                         (fun '(r1, e1) (visited : gset EntryRef) =>
                            build_component fmt r1 e1 (Some visited)) entries v);
                       outcome := Finished |}).
  { unfold build_component, _build_component.
    apply build_component_skips_visited. exact Hrec. }
  rewrite Hskip. cbn. rewrite app_nil_r.
  destruct (gen_for _ entries v) as [em va oc]. cbn in *. by rewrite Hfin.
Qed.

Lemma cloze_components_repeat_witness :
  cloze_components (Examples.fmt_of [Examples.cyc_a; Examples.cyc_b])
    ([(mkEntryRef 10 None, Examples.cyc_a); (mkEntryRef 11 None, Examples.cyc_b)]
       ++ [(mkEntryRef 11 None, Examples.cyc_b)]) ∅
  = cloze_components (Examples.fmt_of [Examples.cyc_a; Examples.cyc_b])
      [(mkEntryRef 10 None, Examples.cyc_a); (mkEntryRef 11 None, Examples.cyc_b)] ∅.
Proof.
  apply cloze_components_repeat.
  - right. left. reflexivity.
  - reflexivity.
Defined.

(** ** Shape of a reference occurrence *)

Lemma span_contents_no_bracket (s a b : string) :
  span_contents s = (a, b) -> str_mem "]" a = false.
Proof.
  revert a b. induction s as [|c s IH]; intros a b; cbn [span_contents].
  - by intros [= <- <-].
  - destruct (Ascii.eqb c "]") eqn:E; [by intros [= <- <-]|].
    destruct (span_contents s) as [a' b'] eqn:Es. intros [= <- <-].
    cbn [str_mem]. rewrite E. cbn. by apply (IH a' b').
Qed.

Lemma span_contents_exact (a b : string) :
  str_mem "]" a = false -> span_contents (a ++ String "]" b) = (a, String "]" b).
Proof.
  induction a as [|c a IH]; [done|]. cbn [str_mem]. intros H.
  apply orb_false_iff in H as [Hc Ha]. rewrite app_String. cbn [span_contents].
  rewrite Hc, (IH Ha). reflexivity.
Qed.

Lemma strip_prefix_exact (p r : string) : strip_prefix p (p ++ r) = Some r.
Proof.
  induction p as [|c p IH]; [done|]. rewrite app_String. cbn [strip_prefix].
  by rewrite Ascii.eqb_refl.
Qed.

Lemma strip_bang_none (s : string) :
  strip_prefix "!" s = None <-> PyStr.startswith "!" s = false.
Proof.
  destruct s as [|c s]; [done|]. cbn [strip_prefix PyStr.startswith].
  rewrite (Ascii.eqb_sym "!" c). by destruct (Ascii.eqb c "!").
Qed.

Lemma startswith_prefix c (a b : string) :
  PyStr.startswith c (a ++ b) = false -> PyStr.startswith c a = false.
Proof. by destruct a. Qed.

(** X17. What [_INLINE_REF_REGEX] matches.  A match is a prefix of the
    text; it consists of "[[", the optional "!", the contents and "]]"; the
    contents contain no closing bracket; and the "!" is always taken when it
    is there, so the contents of a match without the capitalized group never
    start with "!". *)
Theorem inline_ref_match_shape (s : string) (m : Match) :
  _INLINE_REF_REGEX s = Some m ->
  group0 m = "[[" ++ default "" (group_capitalized m) ++ group_contents m ++ "]]"
  /\ (exists rest, s = group0 m ++ rest)
  /\ str_mem "]" (group_contents m) = false
  /\ (group_capitalized m = None \/ group_capitalized m = Some "!")
  /\ (group_capitalized m = None -> PyStr.startswith "!" (group_contents m) = false).
Proof.
  intros H. destruct (regex_match_prefix s m H) as (g & rest & _ & Hs).
  revert H. unfold _INLINE_REF_REGEX.
  destruct (strip_prefix "[[" s) as [r0|]; [|discriminate].
  destruct (strip_prefix "!" r0) as [r1|] eqn:Eb.
  - destruct (span_contents r1) as [contents rest2] eqn:Es.
    destruct (strip_prefix "]]" rest2); [|discriminate]. intros [= <-]. cbn.
    split; [done|]. split; [by exists rest|].
    split; [by apply (span_contents_no_bracket r1 contents rest2)|].
    split; [by right | discriminate].
  - destruct (span_contents r0) as [contents rest2] eqn:Es.
    destruct (strip_prefix "]]" rest2); [|discriminate]. intros [= <-]. cbn.
    split; [done|]. split; [by exists rest|].
    split; [by apply (span_contents_no_bracket r0 contents rest2)|].
    split; [by left|]. intros _. apply strip_bang_none in Eb.
    apply span_contents_app in Es. rewrite Es in Eb.
    by apply (startswith_prefix _ _ rest2).
Qed.

Lemma inline_ref_match_shape_witness :
  exists rest, "[[!x y]] z" = "[[!x y]]" ++ rest.
Proof.
  assert (H : _INLINE_REF_REGEX "[[!x y]] z"
              = Some {| group0 := "[[!x y]]"; group_capitalized := Some "!";
                        group_contents := "x y" |}) by reflexivity.
  destruct (inline_ref_match_shape _ _ H) as (_ & Hrest & _). exact Hrest.
Defined.

(** ** Serialising a reference and reading it back *)

Lemma regex_match_serialised (bang : bool) (contents rest : string) :
  str_mem "]" contents = false ->
  (bang = false -> PyStr.startswith "!" contents = false) ->
  _INLINE_REF_REGEX ("[[" ++ (if bang then "!" ++ contents else contents) ++ "]]" ++ rest)
  = Some {| group0 := "[[" ++ default "" (if bang then Some "!" else None)
                           ++ contents ++ "]]";
            group_capitalized := if bang then Some "!" else None;
            group_contents := contents |}.
Proof.
  intros Hc Hb. unfold _INLINE_REF_REGEX. rewrite strip_prefix_exact.
  destruct bang.
  - rewrite string_app_assoc, strip_prefix_exact.
    change ("]]" ++ rest) with (String "]" (String "]" rest)).
    rewrite (span_contents_exact _ _ Hc). reflexivity.
  - specialize (Hb eq_refl).
    assert (Hn : strip_prefix "!" (contents ++ "]]" ++ rest) = None).
    { apply strip_bang_none. destruct contents as [|c contents]; [done|]. exact Hb. }
    rewrite Hn.
    change ("]]" ++ rest) with (String "]" (String "]" rest)).
    rewrite (span_contents_exact _ _ Hc). reflexivity.
Qed.

Lemma scan_skip_all (s : string) : forall k, (String.length s <= k)%nat -> scan k s = [].
Proof.
  induction s as [|c s IH]; intros k Hk; [done|].
  cbn [String.length] in Hk. destruct k as [|k]; [lia|]. cbn [scan]. apply IH. lia.
Qed.

Lemma string_app_nil_r (s : string) : s ++ "" = s.
Proof. induction s as [|c s IH]; [done|]. by rewrite app_String, IH. Qed.

(** X18. Reading back what [format_inline_ref] wrote.  When the canonical
    text of the reference is not empty, contains no closing bracket and does
    not start with "!", the serialised reference is one occurrence, and
    substituting it calls the callback exactly once: on the first candidate
    the grammar returns for the canonical text, with the capitalized flag of
    the serialised reference (forced to true when the canonical text starts
    with an uppercase character).  The result of the substitution is the
    result of that call. *)
Theorem format_inline_ref_read_back {St : Type} (ext : Externals)
    (f : DictionaryFetcher) (callback : Callback St InlineRef)
    (ir : InlineRef) (st : St) (first : string) (r0 : EntryRef) (rs : list EntryRef) :
  str_mem "]" (ref_to_string ext (ref ir)) = false ->
  PyStr.startswith "!" (ref_to_string ext (ref ir)) = false ->
  str_index0 (ref_to_string ext (ref ir)) = Ok first ->
  parse_any_ref ext f (ref_to_string ext (ref ir)) = r0 :: rs ->
  scan 0 (format_inline_ref ext ir)
  = [Occ {| group0 := format_inline_ref ext ir;
            group_capitalized := if capitalized ir then Some "!" else None;
            group_contents := ref_to_string ext (ref ir) |}]
  /\ replace_inline_refs ext f callback (format_inline_ref ext ir) st
     = (callback {| ref := r0;
                    capitalized := if str_isupper ext first then true
                                   else capitalized ir |} st).
Proof.
  intros Hc Hb Hfirst Hparse.
  set (s := ref_to_string ext (ref ir)) in *.
  assert (Htext : format_inline_ref ext ir
                  = "[[" ++ (if capitalized ir then "!" ++ s else s) ++ "]]" ++ "").
  { unfold format_inline_ref. fold s. by rewrite string_app_nil_r. }
  assert (Hm : _INLINE_REF_REGEX (format_inline_ref ext ir)
               = Some {| group0 := format_inline_ref ext ir;
                         group_capitalized := if capitalized ir then Some "!" else None;
                         group_contents := s |}).
  { rewrite Htext at 1. rewrite (regex_match_serialised (capitalized ir) s "" Hc (fun _ => Hb)).
    do 2 f_equal. rewrite Htext, string_app_nil_r.
    destruct (capitalized ir); cbn [default]; [by rewrite string_app_assoc | done]. }
  assert (Hscan : scan 0 (format_inline_ref ext ir)
                  = [Occ {| group0 := format_inline_ref ext ir;
                            group_capitalized := if capitalized ir then Some "!" else None;
                            group_contents := s |}]).
  { destruct (format_inline_ref ext ir) as [|c rest] eqn:Et.
    - unfold format_inline_ref in Et. discriminate.
    - cbn [scan]. rewrite Hm. cbn [group0 String.length].
      rewrite Nat.sub_succ, Nat.sub_0_r. by rewrite scan_skip_all. }
  split; [exact Hscan|].
  unfold replace_inline_refs, regex_sub. rewrite Hscan. cbn [sub_pieces].
  unfold apply at 1. cbn [group_contents group_capitalized]. rewrite Hparse, Hfirst.
  cbn [rbind].
  assert (Hcap : bool_decide ((if capitalized ir then Some "!" else None) <> (None : option string))
                 = capitalized ir).
  { destruct (capitalized ir); [by apply bool_decide_eq_true | by apply bool_decide_eq_false; intros H; apply H]. }
  rewrite Hcap.
  destruct (callback _ st) as [[out st1]|]; cbn [rbind]; [|done].
  by rewrite string_app_nil_r.
Qed.

Lemma format_inline_ref_read_back_witness :
  replace_inline_refs MoreExamples.ext_seven (Examples.fetcher_of [Examples.naam])
    (fun (ir : InlineRef) (st : list bool) => Ok ("<>", capitalized ir :: st))
    (format_inline_ref MoreExamples.ext_seven
       {| ref := mkEntryRef 7 None; capitalized := true |}) []
  = Ok ("<>", [true]).
Proof.
  destruct (format_inline_ref_read_back MoreExamples.ext_seven
              (Examples.fetcher_of [Examples.naam])
              (fun (ir : InlineRef) (st : list bool) => Ok ("<>", capitalized ir :: st))
              {| ref := mkEntryRef 7 None; capitalized := true |} [] "7"
              (mkEntryRef 7 None) [] eq_refl eq_refl eq_refl eq_refl) as [_ H].
  rewrite H. reflexivity.
Defined.

(** ** Cloze notes *)

(** X19. A sentence in which the grammar recognises no reference (plain
    text, or brackets it cannot parse) gives a cloze note whose normalised
    text and cloze text are both the sentence itself, with an empty extra
    field and no media; the formatter's media map is left as it was. *)
Theorem cloze_to_note_unparsed (ext : Externals) (fmt : NoteFormatter)
    (raw : string) (m : gmap string string) :
  (forall mt, In (Occ mt) (scan 0 raw) ->
              parse_any_ref ext (_fetcher fmt) (group_contents mt) = []) ->
  cloze_to_note ext fmt raw m
  = (Ok {| inline_ids := raw; cloze := raw; cloze_extra := ""; cloze_media := ∅ |}, m).
Proof.
  intros H.
  assert (Hsub : forall St (cb : Callback St InlineRef) st,
             replace_inline_refs ext (_fetcher fmt) cb raw st = Ok (raw, st)).
  { intros St cb st. unfold replace_inline_refs, regex_sub.
    rewrite sub_pieces_identity; [by rewrite scan_text|].
    intros mt st' Hin. apply apply_unparsed. by apply H. }
  unfold cloze_to_note, mbind, lift, mret. rewrite Hsub. rewrite Hsub. reflexivity.
Qed.

Lemma cloze_to_note_unparsed_witness :
  cloze_to_note Examples.ext_none (Examples.fmt_of [Examples.naam]) "a [[b]] c" ∅
  = (Ok {| inline_ids := "a [[b]] c"; cloze := "a [[b]] c";
           cloze_extra := ""; cloze_media := ∅ |}, ∅).
Proof. apply cloze_to_note_unparsed. intros mt _. reflexivity. Defined.

(** ** Pronunciation of a merged entry *)

Lemma map_result_is_ok {A B} (f : A -> result B) (l : list A) :
  is_ok (map_result f l) = true <-> (forall x, In x l -> is_ok (f x) = true).
Proof.
  induction l as [|a l IH]; cbn [map_result]; [by split|].
  destruct (f a) as [b|err] eqn:Ea; cbn [rbind].
  - destruct (map_result f l) as [bs|err'] eqn:El; cbn [rbind is_ok].
    + split; [|done]. intros _ x [<-|Hx]; [by rewrite Ea|]. by apply IH.
    + split; [done|]. intros H. apply IH. intros x Hx. apply H. by right.
  - cbn [is_ok]. split; [done|]. intros H. specialize (H a (or_introl eq_refl)).
    by rewrite Ea in H.
Qed.

Lemma map_result_raise {A B} (f : A -> result B) (l : list A) err :
  map_result f l = Raise err -> exists x, In x l /\ f x = Raise err.
Proof.
  induction l as [|a l IH]; cbn [map_result]; [discriminate|].
  destruct (f a) as [b|err'] eqn:Ea; cbn [rbind].
  - destruct (map_result f l) as [bs|err''] eqn:El; cbn [rbind]; [discriminate|].
    intros [= ->]. destruct (IH eq_refl) as (x & Hx & Hfx). exists x. split; [by right|done].
  - intros [= ->]. exists a. split; [by left | done].
Qed.

(** X20. [get_super_entry_pronounciations] succeeds exactly when every
    component other than a self-reference names an entry of the dictionary
    that has a pronunciation under the given scheme; otherwise it raises
    EntryNotFound or KeyError, and nothing else.  For a list of self
    references only it is the entry's own pronunciation repeated, separated
    by single spaces. *)
Theorem get_super_entry_pronounciations_succeeds (fmt : NoteFormatter)
    (name self_pronounciation : string) (comps : list ComponentRef) :
  (is_ok (get_super_entry_pronounciations fmt name self_pronounciation comps) = true <->
   forall r, In (CRef r) comps ->
             exists e p, get_entry (_fetcher fmt) (ref_id r) = Ok e
                         /\ assoc name (pronounciations e) = Some p)
  /\ (forall err,
        get_super_entry_pronounciations fmt name self_pronounciation comps = Raise err ->
        err = EntryNotFound \/ err = KeyError)
  /\ (forall n,
        get_super_entry_pronounciations fmt name self_pronounciation
          (List.repeat SELF_REFERENCE n)
        = Ok (PyStr.join " " (List.repeat self_pronounciation n))).
Proof.
  unfold get_super_entry_pronounciations.
  set (part := fun comp =>
         match comp with
         | SELF_REFERENCE => Ok self_pronounciation
         | CRef r =>
             (comp_entry <-? get_entry (_fetcher fmt) (ref_id r);
              getitem (pronounciations comp_entry) name)%result
         end).
  assert (Hpart : forall r, is_ok (part (CRef r)) = true <->
                    exists e p, get_entry (_fetcher fmt) (ref_id r) = Ok e
                                /\ assoc name (pronounciations e) = Some p).
  { intros r. cbn [part]. unfold getitem.
    destruct (get_entry (_fetcher fmt) (ref_id r)) as [e|]; cbn [rbind].
    - destruct (assoc name (pronounciations e)) as [p|] eqn:Ep; cbn [is_ok].
      + split; [|done]. intros _. by exists e, p.
      + split; [done|]. intros (e' & p & [= <-] & Hp). congruence.
    - split; [done|]. by intros (e' & p & H & _). }
  split; [|split].
  - destruct (map_result part comps) as [parts|] eqn:Em; cbn [rbind is_ok].
    + split; [|done]. intros _ r Hr. apply Hpart.
      assert (Hok : is_ok (map_result part comps) = true) by (by rewrite Em).
      by apply (proj1 (map_result_is_ok part comps) Hok).
    + split; [done|]. intros H.
      assert (Hok : is_ok (map_result part comps) = true).
      { apply map_result_is_ok. intros [|r] Hx; [done|]. apply Hpart. by apply H. }
      by rewrite Em in Hok.
  - intros err. destruct (map_result part comps) as [parts|err'] eqn:Em; cbn [rbind];
      [discriminate|]. intros [= ->].
    destruct (map_result_raise _ _ _ Em) as ([|r] & _ & Hx); [discriminate|].
    cbn [part] in Hx. unfold get_entry, getitem in Hx.
    destruct (dictionary (_fetcher fmt) !! ref_id r) as [e|]; cbn [rbind] in Hx.
    + destruct (assoc name (pronounciations e)); [discriminate|].
      injection Hx as <-. by right.
    + injection Hx as <-. by left.
  - intros n.
    assert (Hn : map_result part (List.repeat SELF_REFERENCE n)
                 = Ok (List.repeat self_pronounciation n)).
    { induction n as [|n IH]; [done|]. cbn [List.repeat map_result part rbind].
      by rewrite IH. }
    by rewrite Hn.
Qed.

(** ** Cloze markup *)

Lemma str_length_app (a b : string) :
  String.length (a ++ b) = (String.length a + String.length b)%nat.
Proof. induction a as [|c a IH]; [done|]. rewrite app_String. cbn. by rewrite IH. Qed.

(** X21. [format_cloze] applies no escaping, so its output does not tell
    contents from hint: contents that end in "::" and some text give the
    same markup as the shorter contents with that text as hint.  A hint that
    is the empty string is still written (the test is for None), so it does
    not give the markup of a cloze without hint. *)
Theorem format_cloze_ambiguous (i : Z) (c h : string) :
  format_cloze {| cloze_id := i; contents := c ++ "::" ++ h; hint := None |}
  = format_cloze {| cloze_id := i; contents := c; hint := Some h |}
  /\ format_cloze {| cloze_id := i; contents := c; hint := Some "" |}
     <> format_cloze {| cloze_id := i; contents := c; hint := None |}.
Proof.
  unfold format_cloze. cbn [cloze_id contents hint]. split.
  - by rewrite !string_app_assoc.
  - intros H. apply (f_equal String.length) in H.
    rewrite !str_length_app in H. cbn [String.length] in H. lia.
Qed.

(** ** Component lines *)

(** X22. The level of a component only indents its line: the line of the
    component one level deeper is the same line with two more "&nbsp;" in
    front, and it fails exactly when the other does, with the same
    exception. *)
Theorem format_component_indent (fmt : NoteFormatter) (c : WordComponent) :
  format_component fmt {| wc_id := wc_id c; wc_definition := wc_definition c;
                          wc_entry := wc_entry c; wc_level := S (wc_level c) |}
  = (line <-? format_component fmt c; Ok ("&nbsp;&nbsp;" ++ line))%result.
Proof.
  unfold format_component. cbn [wc_entry wc_definition wc_level].
  destruct (format_inline_word fmt (wc_entry c)) as [w|]; [|done]. cbn [rbind].
  destruct (format_definition (wc_entry c) (Some (wc_definition c))) as [d|]; [|done].
  cbn [rbind]. f_equal.
  replace (2 * S (wc_level c))%nat with (S (S (2 * wc_level c))) by lia.
  cbn [PyStr.repeat]. by rewrite !string_app_assoc.
Qed.

(** ** Classifier line *)

Lemma html_escape_startswith_bracket (s : string) :
  PyStr.startswith "[" (PyStr.html_escape s) = PyStr.startswith "[" s.
Proof.
  rewrite html_escape_flat. destruct s as [|c s]; [done|]. cbn [str_flat_map].
  destruct c as [[] [] [] [] [] [] [] []]; reflexivity.
Qed.

(** X23. The extra field of an entry that has a classifier and no
    components is the classifier line alone: "Classifier: ", the inline word
    of the classifier entry, and its definition text, separated by a space
    when the definition text starts with "[" and by " - " otherwise.  The
    classifier is the first one of the first definition, in stored order,
    whose classifier list is present and not empty. *)
Theorem format_extra_field_classifier (fmt : NoteFormatter) (e : DictionaryEntry)
    (cr : EntryRef) (ce : DictionaryEntry) (w : string) (defn : EntryDefinition) :
  first_classifier e = Some cr ->
  components_definition e = None ->
  get_entry (_fetcher fmt) (ref_id cr) = Ok ce ->
  format_inline_word fmt ce = Ok w ->
  assoc (default (first_definition ce) (ref_definition cr)) (definitions ce) = Some defn ->
  format_extra_field fmt e
  = Ok ("Classifier: " ++ w
        ++ (if PyStr.startswith "[" (definition defn) then " " else " - ")
        ++ PyStr.html_escape (definition defn)).
Proof.
  intros Hc Hn Hce Hw Hd. unfold format_extra_field.
  unfold build_components, traversal_fuel. cbn [_build_components]. rewrite Hn.
  cbn [gen_list outcome emitted rbind]. rewrite Hc, Hce. cbn [rbind]. rewrite Hw.
  cbn [rbind]. unfold format_definition, getitem. rewrite Hd. cbn [rbind].
  rewrite html_escape_startswith_bracket.
  destruct (PyStr.startswith "[" (definition defn)); cbn [rbind map_result PyStr.join];
    unfold join_nonempty_strings; rewrite !filter_cons, filter_nil;
    (rewrite decide_True by done); (rewrite decide_False by (by intros []));
    cbn [PyStr.join]; by rewrite !string_app_assoc.
Qed.

Lemma format_extra_field_classifier_witness :
  format_extra_field (Examples.fmt_of [MoreExamples.piece; MoreExamples.counted])
                     MoreExamples.counted
  = Ok "Classifier: <ruby>an<rt>an</rt></ruby> [piece]".
Proof.
  rewrite (format_extra_field_classifier
             (Examples.fmt_of [MoreExamples.piece; MoreExamples.counted])
             MoreExamples.counted (mkEntryRef 9 None) MoreExamples.piece
             "<ruby>an<rt>an</rt></ruby>" (Examples.plain "[piece]" None)
             eq_refl eq_refl eq_refl eq_refl eq_refl).
  reflexivity.
Defined.
